(** * c-ray-mt: a shallow embedding of [c-ray.c] and its specification claims

    The renderer computes in C [double]s.  They are modelled by Rocq's
    primitive binary64 floats, so every definition below can be run on
    concrete scenes, and every comparison has its IEEE meaning (a NaN
    compares false with everything).  C [int]s are modelled by [Z]; the
    development assumes the integer arithmetic of the program stays in range
    and writes no wrap-around.  Conversions from [double] to an integer type
    are partial, as in C: a value whose truncation does not fit has no
    defined result. *)

From Stdlib Require Import ZArith Lia List Bool Ascii Floats Uint63 Permutation.
From stdpp Require Import base option list.

Local Open Scope Z_scope.

(* Decimal literals such as [1e-6] denote the nearest binary64 value, as
   they do in C. *)
Set Warnings "-inexact-float".

(** ** Doubles *)

Abbreviation double := float (only parsing).

Module Double.

  (** [(double)i] for an [int] [i]. *)
Definition of_int (i : Z) : double :=
    if i <? 0 then PrimFloat.opp (PrimFloat.of_uint63 (Uint63.of_Z (- i)))
    else PrimFloat.of_uint63 (Uint63.of_Z i).

  (** The integer part of a finite double (rounding toward zero). *)
Definition truncate (d : double) : option Z :=
    match Prim2SF d with
    | S754_zero _ => Some 0
    | S754_finite s m e =>
        let a := match e with
                 | Z0 => Zpos m
                 | Zpos _ => Z.shiftl (Zpos m) e
                 | Zneg p => Z.shiftr (Zpos m) (Zpos p)
                 end in
        Some (if s then - a else a)
    | S754_infinity _ | S754_nan => None
    end.

  (** [(int)d]: defined when the truncated value is an [int]. *)
Definition to_int (d : double) : option Z :=
    match truncate d with
    | Some v => if (- 2147483648 <=? v) && (v <=? 2147483647) then Some v else None
    | None => None
    end.

  (** [(uint32_t)d]: defined when the truncated value is a [uint32_t]. *)
Definition to_uint32 (d : double) : option Z :=
    match truncate d with
    | Some v => if (0 <=? v) && (v <=? 4294967295) then Some v else None
    | None => None
    end.

  (** A [double] stored into a [float] variable and read back: rounding to
      binary32 (24-bit mantissa, [emax] 128), to nearest even. *)
Definition to_single (d : double) : double :=
    match Prim2SF d with
    | S754_finite s m e => SF2Prim (binary_round 24 128 s m e)
    | _ => d
    end.

  (** The macros [MAX] and [MIN]. *)
Definition MAX (a b : double) : double := if (b <? a)%float then a else b.
Definition MIN (a b : double) : double := if (a <? b)%float then a else b.

  (** The macro [SQ]. *)
Definition SQ (a : double) : double := (a * a)%float.

  (** "Not negative": [d < 0.0] is false.  Zeros of both signs, positive
      numbers, [+infinity] and NaN are not negative. *)
Definition nonneg (d : double) : Prop := (d <? 0)%float = false.

(** A double that is not a NaN: it equals itself. *)
Definition not_nan (a : double) : bool := (a =? a)%float.

(** "Zero or NaN": neither [d < 0.0] nor [0.0 < d]. *)
Definition zero_or_nan (d : double) : bool :=
    negb (d <? 0)%float && negb (0 <? d)%float.

End Double.

(** ** Data model: the structs of [c-ray.c] *)

Module vec3.
Record t := mk { x : double; y : double; z : double }.
End vec3.

Module ray.
Record t := mk { orig : vec3.t; dir : vec3.t }.
End ray.

Module material.
Record t := mk {
    col : vec3.t;     (* color *)
    spow : double;    (* specular power *)
    refl : double     (* reflection intensity *)
  }.
End material.

(** A [struct sphere] without its [next] link: the linked list hanging off
    [obj_list->next] is a Rocq list. *)
Module sphere.
Record t := mk { pos : vec3.t; rad : double; mat : material.t }.
End sphere.

Module spoint.
Record t := mk {
    pos : vec3.t; normal : vec3.t; vref : vec3.t;
    dist : double     (* parametric distance of intersection along the ray *)
  }.
End spoint.

Module camera.
Record t := mk { pos : vec3.t; targ : vec3.t; fov : double }.
End camera.

Module thread_data.
Record t := mk { sl_start : Z; sl_count : Z }.
End thread_data.

(** ** Constants *)

Definition RAY_MAG : double := 1000.0%float.
Definition MAX_RAY_DEPTH : Z := 5.
Definition FOV : double := 0.78539816%float.
Definition HALF_FOV : double := (FOV * 0.5)%float.
Definition ERR_MARGIN : double := 1e-6%float.
Definition NRAN : Z := 1024.
Definition MASK : Z := NRAN - 1.
Definition GSHIFT : Z := 8.
Definition aspect : double := 1.333333%float.

(** ** Vector macros and helpers *)

Definition black : vec3.t := vec3.mk 0 0 0.

Definition DOT (a b : vec3.t) : double :=
  (a.(vec3.x) * b.(vec3.x) + a.(vec3.y) * b.(vec3.y) + a.(vec3.z) * b.(vec3.z))%float.

Definition NORMALIZE (a : vec3.t) : vec3.t :=
  let len := PrimFloat.sqrt (DOT a a) in
  vec3.mk (a.(vec3.x) / len)%float (a.(vec3.y) / len)%float (a.(vec3.z) / len)%float.

(** Component-wise sum of two colours. *)
Definition vadd (a b : vec3.t) : vec3.t :=
  vec3.mk (a.(vec3.x) + b.(vec3.x))%float (a.(vec3.y) + b.(vec3.y))%float
          (a.(vec3.z) + b.(vec3.z))%float.

(** A sum of colours: the terms are added to black one after the other. *)
Definition vsum (l : list vec3.t) : vec3.t := fold_left vadd l (vec3.mk 0 0 0).

(* calculate reflection vector *)
Definition reflect (v n : vec3.t) : vec3.t :=
  let dot := (v.(vec3.x) * n.(vec3.x) + v.(vec3.y) * n.(vec3.y) + v.(vec3.z) * n.(vec3.z))%float in
  vec3.mk (- (2.0 * dot * n.(vec3.x) - v.(vec3.x)))%float
          (- (2.0 * dot * n.(vec3.y) - v.(vec3.y)))%float
          (- (2.0 * dot * n.(vec3.z) - v.(vec3.z)))%float.

Definition cross_product (v1 v2 : vec3.t) : vec3.t :=
  vec3.mk (v1.(vec3.y) * v2.(vec3.z) - v1.(vec3.z) * v2.(vec3.y))%float
          (v1.(vec3.z) * v2.(vec3.x) - v1.(vec3.x) * v2.(vec3.z))%float
          (v1.(vec3.x) * v2.(vec3.y) - v1.(vec3.y) * v2.(vec3.x))%float.

(** ** Ray-sphere intersection *)

(** The two roots [t1] (from [+sqrt_d]) and [t2] (from [-sqrt_d]) of the
    intersection quadratic, or [None] when the discriminant is negative. *)
Definition sphere_roots (sph : sphere.t) (r : ray.t) : option (double * double) :=
  let d_ := r.(ray.dir) in
  let o := r.(ray.orig) in
  let p := sph.(sphere.pos) in
  let a := (Double.SQ d_.(vec3.x) + Double.SQ d_.(vec3.y) + Double.SQ d_.(vec3.z))%float in
  let b := (2.0 * d_.(vec3.x) * (o.(vec3.x) - p.(vec3.x)) +
            2.0 * d_.(vec3.y) * (o.(vec3.y) - p.(vec3.y)) +
            2.0 * d_.(vec3.z) * (o.(vec3.z) - p.(vec3.z)))%float in
  let c := (Double.SQ p.(vec3.x) + Double.SQ p.(vec3.y) + Double.SQ p.(vec3.z) +
            Double.SQ o.(vec3.x) + Double.SQ o.(vec3.y) + Double.SQ o.(vec3.z) +
            2.0 * (- p.(vec3.x) * o.(vec3.x) - p.(vec3.y) * o.(vec3.y) - p.(vec3.z) * o.(vec3.z)) -
            Double.SQ sph.(sphere.rad))%float in
  let d := (Double.SQ b - 4.0 * a * c)%float in
  if (d <? 0.0)%float then None
  else
    let sqrt_d := PrimFloat.sqrt d in
    Some ((- b + sqrt_d) / (2.0 * a), (- b - sqrt_d) / (2.0 * a))%float.

(** The test that rejects a pair of roots. *)
Definition roots_rejected (t1 t2 : double) : bool :=
  ((t1 <? ERR_MARGIN)%float && (t2 <? ERR_MARGIN)%float) ||
  ((1.0 <? t1)%float && (1.0 <? t2)%float).

(** The distance stored in [sp->dist]. *)
Definition hit_distance (t1 t2 : double) : double :=
  let t1' := if (t1 <? ERR_MARGIN)%float then t2 else t1 in
  let t2' := if (t2 <? ERR_MARGIN)%float then t1' else t2 in
  if (t1' <? t2')%float then t1' else t2'.

(** The surface point written through [sp] when it is not NULL. *)
Definition surface_point (sph : sphere.t) (r : ray.t) (t1 t2 : double) : spoint.t :=
  let dist := hit_distance t1 t2 in
  let o := r.(ray.orig) in
  let d_ := r.(ray.dir) in
  let pos := vec3.mk (o.(vec3.x) + d_.(vec3.x) * dist)%float
                     (o.(vec3.y) + d_.(vec3.y) * dist)%float
                     (o.(vec3.z) + d_.(vec3.z) * dist)%float in
  let c := sph.(sphere.pos) in
  let normal := vec3.mk ((pos.(vec3.x) - c.(vec3.x)) / sph.(sphere.rad))%float
                        ((pos.(vec3.y) - c.(vec3.y)) / sph.(sphere.rad))%float
                        ((pos.(vec3.z) - c.(vec3.z)) / sph.(sphere.rad))%float in
  spoint.mk pos normal (NORMALIZE (reflect d_ normal)) dist.

(** [ray_sphere sph ray sp] with [sp != NULL]: [Some] surface point for the
    return value 1, [None] for 0. *)
Definition ray_sphere (sph : sphere.t) (r : ray.t) : option spoint.t :=
  match sphere_roots sph r with
  | None => None
  | Some (t1, t2) =>
      if roots_rejected t1 t2 then None else Some (surface_point sph r t1 t2)
  end.

(** [ray_sphere sph ray 0]: the return value alone. *)
Definition ray_sphere_hit (sph : sphere.t) (r : ray.t) : bool :=
  match sphere_roots sph r with
  | None => false
  | Some (t1, t2) => negb (roots_rejected t1 t2)
  end.

(** ** Tracing and shading *)

Section Tracer.

  (** [pow] of the C library. *)
  Variable pow : double -> double -> double.

  (** The scene: the spheres reachable from [obj_list->next], in list
      order, and the lights [lights[0 .. lnum-1]]. *)
  Variable obj_list : list sphere.t.
  Variable lights : list vec3.t.

  (** The shadow-ray loop of [shade]: stops at the first sphere hit. *)
Fixpoint in_shadow (iter : list sphere.t) (shadow_ray : ray.t) : bool :=
    match iter with
    | [] => false
    | s :: next => if ray_sphere_hit s shadow_ray then true else in_shadow next shadow_ray
    end.

  (** One iteration of [for(i=0; i<lnum; i++)] in [shade]. *)
Definition shade_light (obj : sphere.t) (sp : spoint.t) (col light : vec3.t) : vec3.t :=
    let p := sp.(spoint.pos) in
    let ldir := vec3.mk (light.(vec3.x) - p.(vec3.x))%float
                        (light.(vec3.y) - p.(vec3.y))%float
                        (light.(vec3.z) - p.(vec3.z))%float in
    let shadow_ray := ray.mk p ldir in
    if in_shadow obj_list shadow_ray then col
    else
      let ldir := NORMALIZE ldir in
      let m := obj.(sphere.mat) in
      let idiff := Double.MAX (DOT sp.(spoint.normal) ldir) 0.0 in
      let ispec := if (0.0 <? m.(material.spow))%float
                   then pow (Double.MAX (DOT sp.(spoint.vref) ldir) 0.0) m.(material.spow)
                   else 0.0%float in
      vec3.mk (col.(vec3.x) + (idiff * m.(material.col).(vec3.x) + ispec))%float
              (col.(vec3.y) + (idiff * m.(material.col).(vec3.y) + ispec))%float
              (col.(vec3.z) + (idiff * m.(material.col).(vec3.z) + ispec))%float.

  (** The ray spawned by a reflective surface. *)
Definition reflection_ray (sp : spoint.t) : ray.t :=
    let v := sp.(spoint.vref) in
    ray.mk sp.(spoint.pos)
           (vec3.mk (v.(vec3.x) * RAY_MAG)%float (v.(vec3.y) * RAY_MAG)%float
                    (v.(vec3.z) * RAY_MAG)%float).

  (** [shade], with its call to [trace] taken as a parameter: [tr] returns
      [None] when it could not finish. *)
Definition shade_with (tr : ray.t -> Z -> option vec3.t)
      (obj : sphere.t) (sp : spoint.t) (depth : Z) : option vec3.t :=
    let col := fold_left (shade_light obj sp) lights (vec3.mk 0 0 0) in
    let m := obj.(sphere.mat) in
    if (0.0 <? m.(material.refl))%float then
      match tr (reflection_ray sp) (depth + 1) with
      | Some rcol =>
          Some (vec3.mk (col.(vec3.x) + rcol.(vec3.x) * m.(material.refl))%float
                        (col.(vec3.y) + rcol.(vec3.y) * m.(material.refl))%float
                        (col.(vec3.z) + rcol.(vec3.z) * m.(material.refl))%float)
      | None => None
      end
    else Some col.

  (** The loop of [trace] that finds the nearest intersection; [nearest] is
      the pair [nearest_obj], [nearest_sp] ([None] for a null [nearest_obj]). *)
Fixpoint find_nearest (iter : list sphere.t) (r : ray.t)
      (nearest : option (sphere.t * spoint.t)) : option (sphere.t * spoint.t) :=
    match iter with
    | [] => nearest
    | s :: next =>
        let nearest' :=
          match ray_sphere s r with
          | Some sp =>
              match nearest with
              | None => Some (s, sp)
              | Some (_, nearest_sp) =>
                  if (sp.(spoint.dist) <? nearest_sp.(spoint.dist))%float
                  then Some (s, sp) else nearest
              end
          | None => nearest
          end in
        find_nearest next r nearest'
    end.

  (** [trace] and [shade] call each other; [fuel] bounds the number of
      nested calls of [trace], and [None] means that it ran out. *)
Fixpoint trace_fuel (fuel : nat) (r : ray.t) (depth : Z) : option vec3.t :=
    match fuel with
    | O => None
    | S fuel' =>
        (* if we reached the recursion limit, bail out *)
        if MAX_RAY_DEPTH <=? depth then Some black
        else
          match find_nearest obj_list r None with
          | Some (nearest_obj, nearest_sp) =>
              shade_with (trace_fuel fuel') nearest_obj nearest_sp depth
          | None => Some black
          end
    end.

  (** Fuel that suffices at [depth]: one call per remaining level. *)
Definition trace_fuel_for (depth : Z) : nat := S (Z.to_nat (MAX_RAY_DEPTH - depth)).

Definition trace (r : ray.t) (depth : Z) : vec3.t :=
    default black (trace_fuel (trace_fuel_for depth) r depth).

Definition shade (obj : sphere.t) (sp : spoint.t) (depth : Z) : vec3.t :=
    default black (shade_with (fun r d => Some (trace r d)) obj sp depth).

End Tracer.

(** The distance at which [find_nearest] settles, if any sphere is hit. *)
Definition nearest_distance (obj_list : list sphere.t) (r : ray.t) : option double :=
  (fun p => p.2.(spoint.dist)) <$> find_nearest obj_list r None.

(** No sphere of the list is hit at a NaN distance. *)
Definition hit_distances_not_nan (obj_list : list sphere.t) (r : ray.t) : bool :=
  forallb (fun s => match ray_sphere s r with
                    | Some sp => Double.not_nan sp.(spoint.dist)
                    | None => true
                    end) obj_list.

(** ** Rendering *)

(** Rendering code reads and writes one hidden variable, the
    [static double sf] of [get_sample_pos], and has undefined behaviour at an
    out-of-bounds access or an unrepresentable conversion.  [Render A] is a
    computation of an [A] from the value of [sf], with [None] for undefined
    behaviour. *)
Definition Render (A : Type) : Type := double -> option (A * double).

#[export] Instance Render_ret : MRet Render := fun A a sf => Some (a, sf).
#[export] Instance Render_bind : MBind Render := fun A B k m sf =>
  match m sf with
  | Some (a, sf') => k a sf'
  | None => None
  end.

(** A step without access to [sf]. *)
Definition lift {A} (o : option A) : Render A := fun sf =>
  match o with
  | Some a => Some (a, sf)
  | None => None
  end.

(** [for(i = i0; i < i0 + n; i++) a = body(i, a);] *)
Fixpoint for_loop {A} (n : nat) (i : Z) (body : Z -> A -> Render A) (a : A) : Render A :=
  match n with
  | O => mret a
  | S n' => a' ← body i a; for_loop n' (i + 1) body a'
  end.

(** [fb[idx] = v] on a buffer of [length fb] pixels. *)
Definition store (fb : list Z) (idx v : Z) : option (list Z) :=
  if (0 <=? idx) && (idx <? Z.of_nat (length fb)) then Some (<[Z.to_nat idx := v]> fb)
  else None.

Section Renderer.

  Variable pow : double -> double -> double.
  Variable obj_list : list sphere.t.
  Variable lights : list vec3.t.
  Variable cam : camera.t.

  (** Global image parameters. *)
  Variable xres yres : Z.

  (** The random tables of [NRAN] entries each, as the driver filled them. *)
  Variable urand : list vec3.t.
  Variable irand : list Z.

  (** Whether the macro [LITTLE_ENDIAN] is defined where the file is compiled. *)
  Variable LITTLE_ENDIAN : bool.
Definition RSHIFT : Z := if LITTLE_ENDIAN then 16 else 0.
Definition BSHIFT : Z := if LITTLE_ENDIAN then 0 else 16.

  (** The index expressions of [jitter]: into [irand], and into [urand]
      with the entry [r] read from [irand]. *)
Definition irand_index (a s : Z) : Z := Z.land (a + s) MASK.
Definition urand_index (a b r : Z) : Z := Z.land (a + Z.shiftl b 2 + r) MASK.

  (* jitter function taken from Graphics Gems I. *)
Definition jitter (x y s : Z) : option vec3.t :=
    rx ← irand !! Z.to_nat (irand_index x s);
    ux ← urand !! Z.to_nat (urand_index x y rx);
    ry ← irand !! Z.to_nat (irand_index y s);
    uy ← urand !! Z.to_nat (urand_index y x ry);
    Some (vec3.mk ux.(vec3.x) uy.(vec3.y) 0).

  (** The value [sf] has once [get_sample_pos] has run its initialisation. *)
Definition sf_init (sf : double) : double :=
    if (sf =? 0.0)%float then (1.5 / Double.of_int xres)%float else sf.

  (** The point [get_sample_pos] returns when [sf] already holds [sf]
      ([pt.z] is never written nor read; 0 stands for it). *)
Definition sample_pos (sf : double) (x y sample : Z) : option vec3.t :=
    let ptx := (Double.of_int x / Double.of_int xres - 0.5)%float in
    let pty := (- (Double.of_int y / Double.of_int yres - 0.65) / aspect)%float in
    if sample =? 0 then Some (vec3.mk ptx pty 0)
    else
      jt ← jitter x y sample;
      Some (vec3.mk (ptx + jt.(vec3.x) * sf)%float (pty + jt.(vec3.y) * sf / aspect)%float 0).

Definition get_sample_pos (x y sample : Z) : Render vec3.t := fun sf =>
    let sf := sf_init sf in
    match sample_pos sf x y sample with
    | Some pt => Some (pt, sf)
    | None => None
    end.

  (** The body of [get_primary_ray] after the call of [get_sample_pos]. *)
Definition primary_ray_through (pt : vec3.t) : ray.t :=
    let k := NORMALIZE (vec3.mk (cam.(camera.targ).(vec3.x) - cam.(camera.pos).(vec3.x))%float
                                (cam.(camera.targ).(vec3.y) - cam.(camera.pos).(vec3.y))%float
                                (cam.(camera.targ).(vec3.z) - cam.(camera.pos).(vec3.z))%float) in
    let i := cross_product (vec3.mk 0 1 0) k in
    let j := cross_product k i in
    (* float m[3][3] *)
    let m00 := Double.to_single i.(vec3.x) in
    let m01 := Double.to_single j.(vec3.x) in
    let m02 := Double.to_single k.(vec3.x) in
    let m10 := Double.to_single i.(vec3.y) in
    let m11 := Double.to_single j.(vec3.y) in
    let m12 := Double.to_single k.(vec3.y) in
    let m20 := Double.to_single i.(vec3.z) in
    let m21 := Double.to_single j.(vec3.z) in
    let m22 := Double.to_single k.(vec3.z) in
    let ray_orig := vec3.mk 0.0 0.0 0.0 in
    let ray_dir := vec3.mk (pt.(vec3.x) * RAY_MAG)%float (pt.(vec3.y) * RAY_MAG)%float
                           (1.0 / HALF_FOV * RAY_MAG)%float in
    let dir := vec3.mk (ray_dir.(vec3.x) + ray_orig.(vec3.x))%float
                       (ray_dir.(vec3.y) + ray_orig.(vec3.y))%float
                       (ray_dir.(vec3.z) + ray_orig.(vec3.z))%float in
    let foo := vec3.mk
      (dir.(vec3.x) * m00 + dir.(vec3.y) * m01 + dir.(vec3.z) * m02)%float
      (dir.(vec3.x) * m10 + dir.(vec3.y) * m11 + dir.(vec3.z) * m12)%float
      (dir.(vec3.x) * m20 + dir.(vec3.y) * m21 + dir.(vec3.z) * m22)%float in
    let orig := vec3.mk
      (ray_orig.(vec3.x) * m00 + ray_orig.(vec3.y) * m01 + ray_orig.(vec3.z) * m02
       + cam.(camera.pos).(vec3.x))%float
      (ray_orig.(vec3.x) * m10 + ray_orig.(vec3.y) * m11 + ray_orig.(vec3.z) * m12
       + cam.(camera.pos).(vec3.y))%float
      (ray_orig.(vec3.x) * m20 + ray_orig.(vec3.y) * m21 + ray_orig.(vec3.z) * m22
       + cam.(camera.pos).(vec3.z))%float in
    ray.mk orig (vec3.mk (foo.(vec3.x) + orig.(vec3.x))%float
                         (foo.(vec3.y) + orig.(vec3.y))%float
                         (foo.(vec3.z) + orig.(vec3.z))%float).

  (* determine the primary ray corresponding to the specified pixel (x, y) *)
Definition get_primary_ray (x y sample : Z) : Render ray.t :=
    pt ← get_sample_pos x y sample;
    mret (primary_ray_through pt).

  (** One iteration of the sample loop: [(r, g, b)] accumulates the traced
      colour of sample [s] of pixel [(i, sl)]. *)
Definition add_sample (i sl s : Z) (rgb : vec3.t) : Render vec3.t :=
    r ← get_primary_ray i sl s;
    let col := trace pow obj_list lights r 0 in
    mret (vec3.mk (rgb.(vec3.x) + col.(vec3.x))%float
                  (rgb.(vec3.y) + col.(vec3.y))%float
                  (rgb.(vec3.z) + col.(vec3.z))%float).

  (** One colour channel of a packed pixel. *)
Definition pack_channel (c : double) : option Z :=
    v ← Double.to_uint32 (Double.MIN c 1.0 * 255.0)%float;
    Some (Z.land v 255).

Definition pack_pixel (rgb : vec3.t) : option Z :=
    r ← pack_channel rgb.(vec3.x);
    g ← pack_channel rgb.(vec3.y);
    b ← pack_channel rgb.(vec3.z);
    Some (Z.lor (Z.lor (Z.shiftl r RSHIFT) (Z.shiftl g GSHIFT)) (Z.shiftl b BSHIFT)).

  (** The body of the pixel loop up to the scaling by [rcp_samples]: the
      values of [r], [g], [b] for pixel [(i, sl)]. *)
Definition pixel_colour (i sl samples : Z) : Render vec3.t :=
    let rcp_samples := (1.0 / Double.of_int samples)%float in
    rgb ← for_loop (Z.to_nat samples) 0 (add_sample i sl) (vec3.mk 0.0 0.0 0.0);
    mret (vec3.mk (rgb.(vec3.x) * rcp_samples)%float
                  (rgb.(vec3.y) * rcp_samples)%float
                  (rgb.(vec3.z) * rcp_samples)%float).

  (** The packed value of pixel [(i, sl)]. *)
Definition pixel (i sl samples : Z) : Render Z :=
    rgb ← pixel_colour i sl samples;
    lift (pack_pixel rgb).

  (* render a frame of xsz/ysz dimensions into the provided framebuffer *)
Definition render_scanline (xsz ysz sl : Z) (fb : list Z) (samples : Z) : Render (list Z) :=
    for_loop (Z.to_nat xsz) 0
      (fun i fb => v ← pixel i sl samples; lift (store fb (sl * xsz + i) v))
      fb.

  (** The sequential [render]: the pair is the buffer and the offset of
      the moving pointer [fb] from its start. *)
Definition render (xsz ysz : Z) (fb : list Z) (samples : Z) : Render (list Z * Z) :=
    for_loop (Z.to_nat ysz) 0
      (fun j st =>
         for_loop (Z.to_nat xsz) 0
           (fun i '(fb, p) =>
              v ← pixel i j samples;
              fb' ← lift (store fb p v);
              mret (fb', p + 1))
           st)
      (fb, 0).

  (** The work of [thread_func] once the start flag is set. *)
Definition thread_func (rays_per_pixel : Z) (td : thread_data.t) (pixels : list Z)
      : Render (list Z) :=
    for_loop (Z.to_nat td.(thread_data.sl_count)) 0
      (fun i fb => render_scanline xres yres (i + td.(thread_data.sl_start)) fb rays_per_pixel)
      pixels.

  (** The workers of a thread table run one after the other, in table
      order. *)
Fixpoint run_threads (rays_per_pixel : Z) (threads : list thread_data.t) (pixels : list Z)
      : Render (list Z) :=
    match threads with
    | [] => mret pixels
    | td :: rest =>
        pixels' ← thread_func rays_per_pixel td pixels;
        run_threads rays_per_pixel rest pixels'
    end.

End Renderer.

(** ** The pixel of a scanline in the words of its specification *)

Section PixelSpec.

Variable pow : double -> double -> double.
Variable obj_list : list sphere.t.
Variable lights : list vec3.t.
Variable cam : camera.t.
Variable xres yres : Z.
Variable urand : list vec3.t.
Variable irand : list Z.

(** The colours traced along the primary rays of the samples
    [s, s+1, ..., s+n-1] of pixel [(x, y)], while [sf] holds [sf]. *)
Fixpoint sample_colours (sf : double) (x y : Z) (n : nat) (s : Z) : option (list vec3.t) :=
  match n with
  | O => Some []
  | S n' =>
      pt ← sample_pos xres yres urand irand sf x y s;
      rest ← sample_colours sf x y n' (s + 1);
      Some (trace pow obj_list lights (primary_ray_through cam pt) 0 :: rest)
  end.

(** The average of the colours of [samples] samples: their sum times the
    reciprocal of [samples]. *)
Definition average (cols : list vec3.t) (samples : Z) : vec3.t :=
  let rcp_samples := (1.0 / Double.of_int samples)%float in
  let total := vsum cols in
  vec3.mk (total.(vec3.x) * rcp_samples)%float (total.(vec3.y) * rcp_samples)%float
          (total.(vec3.z) * rcp_samples)%float.

End PixelSpec.

(** A channel clamped to the interval [0, 1]. *)
Definition clamp01 (c : double) : double := Double.MAX (Double.MIN c 1.0) 0.0.

(** ** The work partition of [cray_mt] *)

(** The loop that fills the thread table: [n] workers remain and [sl] is
    the running sum. *)
Fixpoint fill_threads (n : nat) (sl sl_per_thread : double) : option (list thread_data.t) :=
  match n with
  | O => Some []
  | S n' =>
      sl_start ← Double.to_int sl;
      let sl := (sl + sl_per_thread)%float in
      sl_end ← Double.to_int sl;
      rest ← fill_threads n' sl sl_per_thread;
      Some (thread_data.mk sl_start (sl_end - sl_start) :: rest)
  end.

(** [threads[thread_num - 1].sl_count = yres - threads[thread_num - 1].sl_start]:
    undefined on an empty table. *)
Fixpoint fix_last (yres : Z) (threads : list thread_data.t) : option (list thread_data.t) :=
  match threads with
  | [] => None
  | [td] => Some [thread_data.mk td.(thread_data.sl_start) (yres - td.(thread_data.sl_start))]
  | td :: rest => rest' ← fix_last yres rest; Some (td :: rest')
  end.

(** The thread table of [cray_mt thread_num xres yres rays_per_pixel]. *)
Definition cray_mt_threads (thread_num yres : Z) : option (list thread_data.t) :=
  let thread_num := if yres <? thread_num then yres else thread_num in
  let sl_per_thread := (Double.of_int yres / Double.of_int thread_num)%float in
  threads ← fill_threads (Z.to_nat thread_num) 0.0 sl_per_thread;
  fix_last yres threads.

(** The clamped worker count, [sl_per_thread], and the value of [sl] after
    [i] additions of [sl_per_thread]. *)
Definition clamp_threads (thread_num yres : Z) : Z :=
  if yres <? thread_num then yres else thread_num.

Definition scanlines_per_thread (thread_num yres : Z) : double :=
  (Double.of_int yres / Double.of_int (clamp_threads thread_num yres))%float.

Definition running_sum (sl_per_thread : double) (i : N) : double :=
  N.iter i (fun sl => (sl + sl_per_thread)%float) 0.0%float.

(** Worker [td] renders scanline [y]: [thread_func] calls [render_scanline]
    for the rows [sl_start, ..., sl_start + sl_count - 1]. *)
Definition renders (td : thread_data.t) (y : Z) : Prop :=
  td.(thread_data.sl_start) <= y < td.(thread_data.sl_start) + td.(thread_data.sl_count).

(** The ranges of a thread table follow one another from [a] to [b]: each
    starts where the one before it ends. *)
Fixpoint chained (a : Z) (threads : list thread_data.t) (b : Z) : Prop :=
  match threads with
  | [] => a = b
  | td :: rest =>
      td.(thread_data.sl_start) = a /\
      chained (a + td.(thread_data.sl_count)) rest b
  end.

(** The frame [cray_mt] renders: the workers of its thread table run on the
    shared buffer. *)
Definition cray_mt_render pow obj_list lights cam (urand : list vec3.t) (irand : list Z)
    LITTLE_ENDIAN (thread_num xres yres rays_per_pixel : Z) (pixels : list Z)
    : Render (list Z) :=
  threads ← lift (cray_mt_threads thread_num yres);
  run_threads pow obj_list lights cam xres yres urand irand LITTLE_ENDIAN
    rays_per_pixel threads pixels.

(** The frame [cray_f] renders. *)
Definition cray_f_render pow obj_list lights cam (urand : list vec3.t) (irand : list Z)
    LITTLE_ENDIAN (xres yres rays_per_pixel : Z) (pixels : list Z) : Render (list Z) :=
  st ← render pow obj_list lights cam xres yres urand irand LITTLE_ENDIAN
         xres yres pixels rays_per_pixel;
  mret st.1.

(** ** Writing the image *)

(** The three [fputc] of one pixel in the output loop of [cray_f] and
    [cray_mt]. *)
Definition put_pixel (LITTLE_ENDIAN : bool) (p : Z) : list Z :=
  [Z.land (Z.shiftr p (RSHIFT LITTLE_ENDIAN)) 255;
   Z.land (Z.shiftr p GSHIFT) 255;
   Z.land (Z.shiftr p (BSHIFT LITTLE_ENDIAN)) 255].

(** The output loop from pixel [i] on, [n] pixels to go: the bytes written
    after the header.  Reading a pixel beyond the buffer is undefined. *)
Fixpoint put_pixels (LITTLE_ENDIAN : bool) (n : nat) (i : Z) (pixels : list Z)
    : option (list Z) :=
  match n with
  | O => Some []
  | S n' =>
      p ← pixels !! Z.to_nat i;
      rest ← put_pixels LITTLE_ENDIAN n' (i + 1) pixels;
      Some (put_pixel LITTLE_ENDIAN p ++ rest)
  end.

Definition image_data (LITTLE_ENDIAN : bool) (xres yres : Z) (pixels : list Z)
    : option (list Z) :=
  put_pixels LITTLE_ENDIAN (Z.to_nat (xres * yres)) 0 pixels.

(** ** The shader in the words of its specification *)

Section ShadeSpec.

Variable pow : double -> double -> double.
Variable obj_list : list sphere.t.
Variable lights : list vec3.t.

(** The literal vector from a surface point to a light. *)
Definition to_light (sp : spoint.t) (light : vec3.t) : vec3.t :=
  vec3.mk (light.(vec3.x) - sp.(spoint.pos).(vec3.x))%float
          (light.(vec3.y) - sp.(spoint.pos).(vec3.y))%float
          (light.(vec3.z) - sp.(spoint.pos).(vec3.z))%float.

(** Some sphere of the scene intersects the shadow ray from the surface
    position along the unnormalised vector to the light. *)
Definition occluded (sp : spoint.t) (light : vec3.t) : bool :=
  existsb (fun s => bool_decide (is_Some (ray_sphere s (ray.mk sp.(spoint.pos) (to_light sp light)))))
    obj_list.

(** The contribution of an unoccluded light: per channel the diffuse term
    times the material colour plus the specular term. *)
Definition phong (obj : sphere.t) (sp : spoint.t) (light : vec3.t) : vec3.t :=
  let light_dir := NORMALIZE (to_light sp light) in
  let m := obj.(sphere.mat) in
  let diffuse := Double.MAX (DOT sp.(spoint.normal) light_dir) 0.0 in
  let specular :=
    if (0.0 <? m.(material.spow))%float
    then pow (Double.MAX (DOT sp.(spoint.vref) light_dir) 0.0) m.(material.spow)
    else 0.0%float in
  vec3.mk (diffuse * m.(material.col).(vec3.x) + specular)%float
          (diffuse * m.(material.col).(vec3.y) + specular)%float
          (diffuse * m.(material.col).(vec3.z) + specular)%float.

Definition shade_spec (obj : sphere.t) (sp : spoint.t) (depth : Z) : vec3.t :=
  let direct :=
    vsum (map (phong obj sp) (List.filter (fun light => negb (occluded sp light)) lights)) in
  let reflectivity := obj.(sphere.mat).(material.refl) in
  if (0.0 <? reflectivity)%float then
    let v := sp.(spoint.vref) in
    let reflected :=
      trace pow obj_list lights
        (ray.mk sp.(spoint.pos)
           (vec3.mk (v.(vec3.x) * RAY_MAG)%float (v.(vec3.y) * RAY_MAG)%float
                    (v.(vec3.z) * RAY_MAG)%float))
        (depth + 1) in
    vadd direct (vec3.mk (reflectivity * reflected.(vec3.x))%float
                         (reflectivity * reflected.(vec3.y))%float
                         (reflectivity * reflected.(vec3.z))%float)
  else direct.

End ShadeSpec.

(** All three components of a colour are not negative. *)
Definition vec3_nonneg (v : vec3.t) : Prop :=
  Double.nonneg v.(vec3.x) /\ Double.nonneg v.(vec3.y) /\ Double.nonneg v.(vec3.z).

(** ** The built-in scene *)

(** The spheres of [load_scene].  Each sphere is linked in at the head of
    the list, so the list is in the reverse order of [scene_lines]. *)
Definition scene_spheres : list sphere.t :=
  [ sphere.mk (vec3.mk 0 0 2) 1
      (material.mk (vec3.mk 1.0 0.5 0.1) 60.0 0.7);
    sphere.mk (vec3.mk 0 (-1000) 2) 999
      (material.mk (vec3.mk 0.1 0.2 0.6) 80.0 0.8);
    sphere.mk (vec3.mk 1.5 (-0.4) 0) 0.6
      (material.mk (vec3.mk 0.1 0.85 1.0) 50.0 0.4);
    sphere.mk (vec3.mk (-1.5) (-0.3) (-1)) 0.7
      (material.mk (vec3.mk 1.0 0.2 0.05) 50.0 0.3) ]%float.

(** The lights of [load_scene] (for a first call, when [lnum] was 0). *)
Definition scene_lights : list vec3.t :=
  [ vec3.mk (-50) 100 (-50); vec3.mk 40 40 150 ]%float.

Definition scene_cam : camera.t :=
  camera.mk (vec3.mk 0 6 (-17)) (vec3.mk 0 (-1) 0) 45%float.

(** ** Loading the scene *)

Definition MAX_LIGHTS : Z := 16.

(** The globals [load_scene] writes: the spheres behind the head node
    [obj_list], the entries [lights[0 .. lnum-1]], and [cam]. *)
Module scene.
Record t := mk { obj_list : list sphere.t; lights : list vec3.t; cam : camera.t }.
End scene.

(** A line of the scene description as [strtok] and [atof] hand it to
    [load_scene]: the first character of its first token, and the numbers
    of the tokens after it. *)
Module scene_line.
Record t := mk { type : ascii; fields : list double }.
End scene_line.

(** The copy of the scene file in [load_scene]. *)
Definition scene_lines : list scene_line.t :=
  [ scene_line.mk "s" [-1.5; -0.3; -1; 0.7; 1.0; 0.2; 0.05; 50.0; 0.3];
    scene_line.mk "s" [1.5; -0.4; 0; 0.6; 0.1; 0.85; 1.0; 50.0; 0.4];
    scene_line.mk "s" [0; -1000; 2; 999; 0.1; 0.2; 0.6; 80.0; 0.8];
    scene_line.mk "s" [0; 0; 2; 1; 1.0; 0.5; 0.1; 60.0; 0.7];
    scene_line.mk "l" [-50; 100; -50];
    scene_line.mk "l" [40; 40; 150];
    scene_line.mk "c" [0; 6; -17; 45; 0; -1; 0] ]%float.

(** The loop that reads three numbers into a [vec3] and breaks when the
    tokens run out: the vector, when all three were there (it is
    indeterminate otherwise), and the tokens left. *)
Definition read_vec3 (toks : list double) : option vec3.t * list double :=
  match toks with
  | a :: b :: c :: rest => (Some (vec3.mk a b c), rest)
  | _ => (None, [])
  end.

(** The body of the loop over the lines.  [lights[lnum++] = pos] has no
    bounds check: with [lnum] at [MAX_LIGHTS] the store is outside the
    array. *)
Definition load_line (l : scene_line.t) (st : scene.t) : option scene.t :=
  let '(pos, toks) := read_vec3 l.(scene_line.fields) in
  if Ascii.eqb l.(scene_line.type) "l" then
    pos ← pos;
    if Z.of_nat (length st.(scene.lights)) <? MAX_LIGHTS
    then Some (scene.mk st.(scene.obj_list) (st.(scene.lights) ++ [pos]) st.(scene.cam))
    else None
  else
    match toks with
    | [] => Some st
    | rad :: toks =>
        let '(col, toks) := read_vec3 toks in
        if Ascii.eqb l.(scene_line.type) "c" then
          pos ← pos; col ← col;
          Some (scene.mk st.(scene.obj_list) st.(scene.lights) (camera.mk pos col rad))
        else
          match toks with
          | spow :: refl :: _ =>
              if Ascii.eqb l.(scene_line.type) "s" then
                pos ← pos; col ← col;
                Some (scene.mk
                        (sphere.mk pos rad (material.mk col spow refl)
                         :: st.(scene.obj_list))
                        st.(scene.lights) st.(scene.cam))
              else Some st
          | _ => Some st
          end
    end.

Fixpoint load_lines (ls : list scene_line.t) (st : scene.t) : option scene.t :=
  match ls with
  | [] => Some st
  | l :: ls' => st' ← load_line l st; load_lines ls' st'
  end.

(** [load_scene] starts a new list of spheres; [lnum], [lights] and [cam]
    are as the last call left them. *)
Definition load_scene (st : scene.t) : option scene.t :=
  load_lines scene_lines (scene.mk [] st.(scene.lights) st.(scene.cam)).

(** The globals when the program starts. *)
Definition scene_init : scene.t :=
  scene.mk [] [] (camera.mk (vec3.mk 0 0 0) (vec3.mk 0 0 0) 0).

(** [k] calls of [load_scene], one for each call of [cray_f] or [cray_mt]
    in the process. *)
Fixpoint load_scene_calls (k : nat) (st : scene.t) : option scene.t :=
  match k with
  | O => Some st
  | S k' => st' ← load_scene_calls k' st; load_scene st'
  end.

(** A stand-in for the C library's [pow] that can be run: [x] multiplied
    with itself [trunc y] times.  It agrees with [pow] in sign, and in value
    up to rounding when [y] is a non-negative integer, as the specular
    powers of the built-in scene are. *)
Fixpoint pow_nat (x : double) (n : nat) : double :=
  match n with
  | O => 1.0%float
  | S n' => (x * pow_nat x n')%float
  end.

Definition pow_integral (x y : double) : double :=
  match Double.truncate y with
  | Some n => pow_nat x (Z.to_nat n)
  | None => nan
  end.

(** Jitter tables for running the model: [NRAN] entries each. *)
Definition flat_urand : list vec3.t := replicate (Z.to_nat NRAN) (vec3.mk 0.25 (-0.25) 0)%float.
Definition flat_irand : list Z := replicate (Z.to_nat NRAN) 7.

(** ** Concrete inputs used below *)

(** A ray that starts at the centre of a sphere of radius 2 and has
    length 1. *)
Definition inner_sphere : sphere.t :=
  sphere.mk (vec3.mk 0 0 0) 2 (material.mk (vec3.mk 1 1 1) 0 0).
Definition inner_ray : ray.t := ray.mk (vec3.mk 0 0 0) (vec3.mk 1 0 0).

(** A sphere so far away that its discriminant is [inf - inf], a nearby
    sphere, and a ray from the origin toward the nearby one. *)
Definition far_sphere : sphere.t :=
  sphere.mk (vec3.mk 1e200 0 0) 1 (material.mk (vec3.mk 1 1 1) 0 0).
Definition near_sphere : sphere.t :=
  sphere.mk (vec3.mk 5 0 5) 1 (material.mk (vec3.mk 1 1 1) 0 0).
Definition diagonal_ray : ray.t := ray.mk (vec3.mk 0 0 0) (vec3.mk 1000 0 1000).

(** A perfect mirror of infinite reflectivity, alone in an unlit scene, and
    a ray that hits it head-on. *)
Definition mirror_sphere : sphere.t :=
  sphere.mk (vec3.mk 0 0 2) 1 (material.mk (vec3.mk 1 1 1) 0 infinity).
Definition head_on_ray : ray.t := ray.mk (vec3.mk 0 0 (-5)) (vec3.mk 0 0 1000).

(** A sphere of negative colour, alone under the lights of the built-in
    scene. *)
Definition dark_sphere : sphere.t :=
  sphere.mk (vec3.mk 0 0 2) 1 (material.mk (vec3.mk (-1) (-1) (-1)) 0 0).

(** The primary ray through the middle of an 8 by 6 image of the built-in
    scene. *)
Definition centre_ray : ray.t :=
  primary_ray_through scene_cam
    (vec3.mk (Double.of_int 4 / Double.of_int 8 - 0.5)
             (- (Double.of_int 3 / Double.of_int 6 - 0.65) / aspect) 0)%float.

(** * Properties *)

(** ** Comparisons of doubles *)

Module DoubleFacts.

Ltac cmp_cases :=
    repeat match goal with
    | |- context [Z.compare ?a ?b] => destruct (Z.compare_spec a b)
    | H : context [Z.compare ?a ?b] |- _ => destruct (Z.compare_spec a b)
    | |- context [Pos.compare_cont Eq ?a ?b] =>
        change (Pos.compare_cont Eq a b) with (Pos.compare a b);
        destruct (Pos.compare_spec a b)
    | H : context [Pos.compare_cont Eq ?a ?b] |- _ =>
        change (Pos.compare_cont Eq a b) with (Pos.compare a b) in H;
        destruct (Pos.compare_spec a b)
    end.

Lemma SFcompare_antisym x y :
    SFcompare y x = option_map CompOpp (SFcompare x y).
  Proof.
    destruct x as [[]|[]| |[] mx ex], y as [[]|[]| |[] my ey]; simpl; try reflexivity;
      cmp_cases; subst; simpl; try reflexivity; try lia.
  Qed.

Lemma SFcompare_lt_trans x y z :
    SFcompare x y = Some Lt -> SFcompare y z = Some Lt -> SFcompare x z = Some Lt.
  Proof.
    destruct x as [[]|[]| |[] mx ex], y as [[]|[]| |[] my ey], z as [[]|[]| |[] mz ez];
      simpl; try congruence; intros H1 H2;
      cmp_cases; subst; simpl in *; try congruence; try lia.
  Qed.

Lemma ltb_compare a b :
    (a <? b)%float = true <-> SFcompare (Prim2SF a) (Prim2SF b) = Some Lt.
  Proof.
    rewrite FloatAxioms.ltb_spec. unfold SFltb.
    destruct (SFcompare (Prim2SF a) (Prim2SF b)) as [[]|]; split; congruence.
  Qed.

Lemma eqb_compare a b :
    (a =? b)%float = true <-> SFcompare (Prim2SF a) (Prim2SF b) = Some Eq.
  Proof.
    rewrite FloatAxioms.eqb_spec. unfold SFeqb.
    destruct (SFcompare (Prim2SF a) (Prim2SF b)) as [[]|]; split; congruence.
  Qed.

  (** [<] on doubles is transitive... *)
Lemma ltb_trans a b c :
    (a <? b)%float = true -> (b <? c)%float = true -> (a <? c)%float = true.
  Proof. rewrite !ltb_compare. apply SFcompare_lt_trans. Qed.

Lemma SFcompare_le_lt_trans x y z :
    SFcompare y x <> Some Lt -> SFcompare x x = Some Eq ->
    SFcompare y z = Some Lt -> SFcompare x z = Some Lt.
  Proof.
    destruct x as [[]|[]| |[] mx ex], y as [[]|[]| |[] my ey], z as [[]|[]| |[] mz ez];
      simpl; try congruence; intros H1 H0 H2;
      cmp_cases; subst; simpl in *; try congruence; try lia.
  Qed.

  (** ... and asymmetric. *)
Lemma ltb_asym a b : (a <? b)%float = true -> (b <? a)%float = false.
  Proof.
    intros H. apply ltb_compare in H.
    destruct (b <? a)%float eqn:E; [|reflexivity].
    apply ltb_compare in E. rewrite SFcompare_antisym, H in E. discriminate.
  Qed.

Lemma ltb_irrefl a : (a <? a)%float = false.
  Proof.
    destruct (a <? a)%float eqn:E; [|reflexivity].
    pose proof (ltb_asym _ _ E). congruence.
  Qed.

  (** Two doubles that are not NaN and of which neither is below the other
      are equal. *)
Lemma not_ltb_eqb a b :
    Double.not_nan a = true -> Double.not_nan b = true ->
    (a <? b)%float = false -> (b <? a)%float = false -> (a =? b)%float = true.
  Proof.
    unfold Double.not_nan. intros Ha Hb Hab Hba.
    apply eqb_compare in Ha, Hb. apply eqb_compare.
    destruct (SFcompare (Prim2SF a) (Prim2SF b)) as [[]|] eqn:E.
    - reflexivity.
    - apply ltb_compare in E. congruence.
    - assert (SFcompare (Prim2SF b) (Prim2SF a) = Some Lt) as E'
        by (rewrite SFcompare_antisym, E; reflexivity).
      apply ltb_compare in E'. congruence.
    - exfalso. destruct (Prim2SF a) as [[]|[]| |[] ? ?], (Prim2SF b) as [[]|[]| |[] ? ?];
        simpl in *; congruence.
  Qed.

  (** With [a] not a NaN, [a <= b < c] gives [a < c]. *)
Lemma not_ltb_ltb_trans a b c :
    Double.not_nan a = true -> (b <? a)%float = false -> (b <? c)%float = true ->
    (a <? c)%float = true.
  Proof.
    unfold Double.not_nan. intros Ha Hba Hbc.
    apply eqb_compare in Ha. apply ltb_compare in Hbc. apply ltb_compare.
    apply SFcompare_le_lt_trans with (y := Prim2SF b); auto.
    intros E. apply ltb_compare in E. congruence.
  Qed.

  (** Equal doubles are the same double, unless they are zeros. *)
Lemma SFcompare_eq_nonzero x y :
    SFcompare x y = Some Eq -> (forall s, x <> S754_zero s) -> x = y.
  Proof.
    destruct x as [[]|[]| |[] mx ex], y as [[]|[]| |[] my ey];
      simpl; try congruence; intros H Hz;
      try (exfalso; eapply Hz; reflexivity);
      cmp_cases; subst; simpl in *; try congruence.
  Qed.

Lemma eqb_eq_not_below a b :
    (a =? b)%float = true -> (a <? ERR_MARGIN)%float = false -> a = b.
  Proof.
    intros E H. apply eqb_compare in E.
    apply Prim2SF_inj, SFcompare_eq_nonzero; [exact E|].
    intros s Hs. rewrite FloatAxioms.ltb_spec, Hs in H.
    destruct s; vm_compute in H; discriminate.
  Qed.

  (** Multiplication of doubles is commutative. *)
Lemma SFmul_comm x y : SF64mul x y = SF64mul y x.
  Proof.
    destruct x as [[]|[]| |[] mx ex], y as [[]|[]| |[] my ey]; simpl; try reflexivity;
      rewrite (Pos.mul_comm mx my), (Z.add_comm ex ey); reflexivity.
  Qed.

Lemma mul_comm a b : (a * b)%float = (b * a)%float.
  Proof. apply Prim2SF_inj. rewrite !FloatAxioms.mul_spec. apply SFmul_comm. Qed.

  (** *** Signs *)

Definition SFnonneg (x : spec_float) : Prop :=
    match x with
    | S754_infinity true | S754_finite true _ _ => False
    | _ => True
    end.

Lemma nonneg_SF d : Double.nonneg d <-> SFnonneg (Prim2SF d).
  Proof.
    unfold Double.nonneg. rewrite FloatAxioms.ltb_spec.
    change (Prim2SF 0) with (S754_zero false).
    destruct (Prim2SF d) as [[]|[]| |[] ? ?]; simpl; split; auto; try discriminate;
      contradiction.
  Qed.

Lemma binary_round_aux_sign s m e l :
    let r := binary_round_aux prec emax s m e l in
    r = S754_nan \/ r = S754_zero s \/ r = S754_infinity s \/
    exists m' e', r = S754_finite s m' e'.
  Proof.
    unfold binary_round_aux.
    destruct (shr_fexp prec emax m e l) as [mrs' e'].
    destruct (shr_fexp prec emax _ e' loc_Exact) as [mrs'' e''].
    destruct (shr_m mrs''); [| destruct (Z.leb _ _) |]; eauto 6.
  Qed.

Lemma binary_round_aux_nonneg m e l :
    SFnonneg (binary_round_aux prec emax false m e l).
  Proof.
    destruct (binary_round_aux_sign false m e l) as [H|[H|[H|(m' & e' & H)]]];
      rewrite H; exact I.
  Qed.

Lemma SFadd_nonneg x y : SFnonneg x -> SFnonneg y -> SFnonneg (SF64add x y).
  Proof.
    destruct x as [[]|[]| |[] mx ex], y as [[]|[]| |[] my ey]; simpl; try tauto.
    intros _ _. unfold SF64add, SFadd, binary_normalize, cond_Zopp. simpl Z.add.
    unfold binary_round.
    destruct (shl_align _ _ _) as [mz ez]. apply binary_round_aux_nonneg.
  Qed.

Lemma SFmul_nonneg x y : SFnonneg x -> SFnonneg y -> SFnonneg (SF64mul x y).
  Proof.
    destruct x as [[]|[]| |[] mx ex], y as [[]|[]| |[] my ey]; simpl; try tauto.
    intros _ _. apply binary_round_aux_nonneg.
  Qed.

Lemma add_nonneg a b :
    Double.nonneg a -> Double.nonneg b -> Double.nonneg (a + b)%float.
  Proof. rewrite !nonneg_SF, FloatAxioms.add_spec. apply SFadd_nonneg. Qed.

Lemma mul_nonneg a b :
    Double.nonneg a -> Double.nonneg b -> Double.nonneg (a * b)%float.
  Proof. rewrite !nonneg_SF, FloatAxioms.mul_spec. apply SFmul_nonneg. Qed.

Lemma zero_nonneg : Double.nonneg 0%float.
  Proof. reflexivity. Qed.

Lemma MAX_zero_nonneg a : Double.nonneg (Double.MAX a 0.0).
  Proof.
    unfold Double.MAX, Double.nonneg.
    destruct (0.0 <? a)%float eqn:E; [apply ltb_asym, E | reflexivity].
  Qed.

  (** [0 <= a] excludes the negative numbers (and NaN). *)
Lemma leb_zero_nonneg a : (0 <=? a)%float = true -> Double.nonneg a.
  Proof.
    rewrite FloatAxioms.leb_spec, nonneg_SF. change (Prim2SF 0) with (S754_zero false).
    destruct (Prim2SF a) as [[]|[]| |[] ? ?]; simpl; auto; discriminate.
  Qed.

End DoubleFacts.

(** ** The intersection engine *)

Lemma ray_sphere_hit_iff sph r : ray_sphere_hit sph r = bool_decide (is_Some (ray_sphere sph r)).
Proof.
  unfold ray_sphere_hit, ray_sphere.
  destruct (sphere_roots sph r) as [[t1 t2]|]; [destruct (roots_rejected t1 t2)|]; reflexivity.
Qed.

Lemma hit_distance_not_below t1 t2 :
  roots_rejected t1 t2 = false -> (hit_distance t1 t2 <? ERR_MARGIN)%float = false.
Proof.
  unfold roots_rejected, hit_distance. intros H.
  apply orb_false_elim in H as [H _].
  destruct (t1 <? ERR_MARGIN)%float eqn:E1, (t2 <? ERR_MARGIN)%float eqn:E2;
    simpl in H; try discriminate.
  - rewrite DoubleFacts.ltb_irrefl. exact E2.
  - rewrite DoubleFacts.ltb_irrefl. exact E1.
  - destruct (t1 <? t2)%float; assumption.
Qed.

Lemma hit_distance_in_range t1 t2 :
  roots_rejected t1 t2 = false ->
  (t1 <? ERR_MARGIN)%float = false -> (t2 <? ERR_MARGIN)%float = false ->
  Double.not_nan t1 = true ->
  (1.0 <? hit_distance t1 t2)%float = false.
Proof.
  unfold roots_rejected, hit_distance. intros H E1 E2 N1. rewrite E1, E2.
  apply orb_false_elim in H as [_ H].
  destruct (t1 <? t2)%float eqn:E.
  - destruct (1.0 <? t1)%float eqn:G1; [|reflexivity].
    rewrite (DoubleFacts.ltb_trans _ _ _ G1 E) in H. discriminate.
  - destruct (1.0 <? t2)%float eqn:G2; [|reflexivity].
    rewrite andb_true_r in H.
    rewrite (DoubleFacts.not_ltb_ltb_trans t1 1.0%float t2 N1 H G2) in E. discriminate.
Qed.

Lemma ray_sphere_surface_point_aux sph r sp :
  ray_sphere sph r = Some sp ->
  exists t1 t2,
    sphere_roots sph r = Some (t1, t2) /\ roots_rejected t1 t2 = false /\
    sp = surface_point sph r t1 t2 /\
    (sp.(spoint.dist) <? ERR_MARGIN)%float = false.
Proof.
  unfold ray_sphere. intros H.
  destruct (sphere_roots sph r) as [[t1 t2]|]; [|discriminate].
  destruct (roots_rejected t1 t2) eqn:Hrej; [discriminate|].
  injection H as <-. exists t1, t2. repeat split; auto.
  apply hit_distance_not_below, Hrej.
Qed.

(** C3, counterexample: the ray [inner_ray] starts inside [inner_sphere];
    the roots are 2 and -2, the hit is reported, and the distance returned
    is 2, beyond the end of the ray at 1.0. *)
Lemma ray_sphere_distance_beyond_one :
  sphere_roots inner_sphere inner_ray = Some (2, -2)%float /\
  option_map spoint.dist (ray_sphere inner_sphere inner_ray) = Some 2%float /\
  (2 <=? 1.0)%float = false.
Proof. vm_compute. auto. Qed.

(** C3, as amended: when [ray_sphere] reports a hit, the distance it
    returns is one of the two computed roots and is never below epsilon; it
    is the smaller root when neither root is below epsilon (and then it is
    not above 1.0, unless [t1] is a NaN), and the other root when one is
    below epsilon, whatever that root's size; the normal is
    [(position - centre) / radius] and the view reflection is the
    normalised [reflect] of the ray direction about the normal. *)
Theorem ray_sphere_surface_point sph r sp :
  ray_sphere sph r = Some sp ->
  exists t1 t2,
    sphere_roots sph r = Some (t1, t2) /\
    (sp.(spoint.dist) = t1 \/ sp.(spoint.dist) = t2) /\
    (sp.(spoint.dist) <? ERR_MARGIN)%float = false /\
    ((t1 <? ERR_MARGIN)%float = false -> (t2 <? ERR_MARGIN)%float = false ->
       sp.(spoint.dist) = Double.MIN t1 t2 /\
       (Double.not_nan t1 = true -> (1.0 <? sp.(spoint.dist))%float = false)) /\
    ((t1 <? ERR_MARGIN)%float = true -> sp.(spoint.dist) = t2) /\
    ((t2 <? ERR_MARGIN)%float = true -> sp.(spoint.dist) = t1) /\
    sp.(spoint.pos) =
      vec3.mk (r.(ray.orig).(vec3.x) + r.(ray.dir).(vec3.x) * sp.(spoint.dist))%float
              (r.(ray.orig).(vec3.y) + r.(ray.dir).(vec3.y) * sp.(spoint.dist))%float
              (r.(ray.orig).(vec3.z) + r.(ray.dir).(vec3.z) * sp.(spoint.dist))%float /\
    sp.(spoint.normal) =
      vec3.mk ((sp.(spoint.pos).(vec3.x) - sph.(sphere.pos).(vec3.x)) / sph.(sphere.rad))%float
              ((sp.(spoint.pos).(vec3.y) - sph.(sphere.pos).(vec3.y)) / sph.(sphere.rad))%float
              ((sp.(spoint.pos).(vec3.z) - sph.(sphere.pos).(vec3.z)) / sph.(sphere.rad))%float /\
    sp.(spoint.vref) = NORMALIZE (reflect r.(ray.dir) sp.(spoint.normal)).
Proof.
  unfold ray_sphere. intros H.
  destruct (sphere_roots sph r) as [[t1 t2]|]; [|discriminate].
  destruct (roots_rejected t1 t2) eqn:Hrej; [discriminate|].
  injection H as <-. exists t1, t2. simpl.
  split; [reflexivity|].
  split.
  { unfold hit_distance.
    destruct (t1 <? ERR_MARGIN)%float, (t2 <? ERR_MARGIN)%float;
      try (destruct (_ <? _)%float); auto. }
  split; [apply hit_distance_not_below, Hrej|].
  split.
  { intros E1 E2. split.
    - unfold hit_distance, Double.MIN. rewrite E1, E2. reflexivity.
    - intros N1. apply hit_distance_in_range; assumption. }
  split.
  { intros E1. unfold hit_distance. rewrite E1.
    destruct (t2 <? ERR_MARGIN)%float; destruct (t2 <? t2)%float; reflexivity. }
  split.
  { intros E2. unfold hit_distance. rewrite E2.
    destruct (t1 <? ERR_MARGIN)%float eqn:E1.
    - unfold roots_rejected in Hrej. rewrite E1, E2 in Hrej. discriminate.
    - destruct (t1 <? t1)%float; reflexivity. }
  auto.
Qed.

(** The amended C3 at the first sphere of the built-in scene and the ray
    through the middle of the image. *)
Lemma ray_sphere_surface_point_witness :
  exists sp t1 t2,
    ray_sphere (sphere.mk (vec3.mk 0 0 2) 1
                  (material.mk (vec3.mk 1.0 0.5 0.1) 60.0 0.7))%float centre_ray = Some sp /\
    (sp.(spoint.dist) = t1 \/ sp.(spoint.dist) = t2) /\
    (sp.(spoint.dist) <? ERR_MARGIN)%float = false.
Proof.
  eexists.
  edestruct (ray_sphere_surface_point
               (sphere.mk (vec3.mk 0 0 2) 1
                  (material.mk (vec3.mk 1.0 0.5 0.1) 60.0 0.7))%float centre_ray)
    as (t1 & t2 & _ & Hd & He & _).
  - vm_compute. reflexivity.
  - exists t1, t2. split; [vm_compute; reflexivity|]. split; [exact Hd | exact He].
Defined.

(** ** Termination of [trace] and [shade] *)

Section TraceFacts.

Variable pow : double -> double -> double.
Variable obj_list : list sphere.t.
Variable lights : list vec3.t.

Local Abbreviation trace_fuel := (trace_fuel pow obj_list lights).
Local Abbreviation shade_with := (shade_with pow obj_list lights).
Local Abbreviation trace := (trace pow obj_list lights).
Local Abbreviation shade := (shade pow obj_list lights).

(** [shade] calls [trace] on the reflection ray, one level deeper, and
    nowhere else. *)
Lemma shade_with_ext tr tr' obj sp depth :
  tr (reflection_ray sp) (depth + 1) = tr' (reflection_ray sp) (depth + 1) ->
  shade_with tr obj sp depth = shade_with tr' obj sp depth.
Proof. unfold shade_with. intros ->. reflexivity. Qed.

Lemma trace_fuel_stable fuel1 : forall fuel2 r depth,
  (Z.to_nat (MAX_RAY_DEPTH - depth) < fuel1)%nat ->
  (Z.to_nat (MAX_RAY_DEPTH - depth) < fuel2)%nat ->
  trace_fuel fuel1 r depth = trace_fuel fuel2 r depth.
Proof.
  induction fuel1 as [|fuel1 IH]; intros [|fuel2] r depth H1 H2; try lia.
  simpl. destruct (MAX_RAY_DEPTH <=? depth) eqn:E; [reflexivity|].
  apply Z.leb_gt in E.
  destruct (find_nearest obj_list r None) as [[obj sp]|]; [|reflexivity].
  apply shade_with_ext, IH; lia.
Qed.

Lemma trace_fuel_total fuel : forall r depth,
  (Z.to_nat (MAX_RAY_DEPTH - depth) < fuel)%nat ->
  is_Some (trace_fuel fuel r depth).
Proof.
  induction fuel as [|fuel IH]; intros r depth H; [lia|].
  simpl. destruct (MAX_RAY_DEPTH <=? depth) eqn:E; [eauto|].
  apply Z.leb_gt in E.
  destruct (find_nearest obj_list r None) as [[obj sp]|]; [|eauto].
  unfold shade_with.
  destruct (0.0 <? _)%float; [|eauto].
  destruct (IH (reflection_ray sp) (depth + 1)) as [rcol ->]; [lia|eauto].
Qed.

(** With enough fuel, [trace_fuel] returns what [trace] returns. *)
Lemma trace_fuel_trace fuel r depth :
  (Z.to_nat (MAX_RAY_DEPTH - depth) < fuel)%nat ->
  trace_fuel fuel r depth = Some (trace r depth).
Proof.
  intros H. unfold trace.
  rewrite (trace_fuel_stable fuel (trace_fuel_for depth) r depth H)
    by (unfold trace_fuel_for; lia).
  destruct (trace_fuel_total (trace_fuel_for depth) r depth) as [c ->];
    [unfold trace_fuel_for; lia | reflexivity].
Qed.

(** The equations of the two functions, as the C source reads. *)
Lemma trace_unfold r depth :
  trace r depth =
    if MAX_RAY_DEPTH <=? depth then black
    else match find_nearest obj_list r None with
         | Some (nearest_obj, nearest_sp) => shade nearest_obj nearest_sp depth
         | None => black
         end.
Proof.
  unfold trace at 1, trace_fuel_for. simpl.
  destruct (MAX_RAY_DEPTH <=? depth) eqn:E; [reflexivity|].
  apply Z.leb_gt in E.
  destruct (find_nearest obj_list r None) as [[obj sp]|]; [|reflexivity].
  unfold shade. f_equal. apply shade_with_ext.
  apply trace_fuel_trace. lia.
Qed.

Lemma shade_unfold obj sp depth :
  shade obj sp depth =
    let col := fold_left (shade_light pow obj_list obj sp) lights (vec3.mk 0 0 0) in
    let m := obj.(sphere.mat) in
    if (0.0 <? m.(material.refl))%float then
      let rcol := trace (reflection_ray sp) (depth + 1) in
      vec3.mk (col.(vec3.x) + rcol.(vec3.x) * m.(material.refl))%float
              (col.(vec3.y) + rcol.(vec3.y) * m.(material.refl))%float
              (col.(vec3.z) + rcol.(vec3.z) * m.(material.refl))%float
    else col.
Proof.
  unfold shade, shade_with. simpl.
  destruct (0.0 <? _)%float; reflexivity.
Qed.

(** C6: [trace] is total.  For every scene, ray and starting depth, the
    mutual recursion of [trace] and [shade] ends within
    [1 + max 0 (5 - depth)] nested calls of [trace]: that fuel, and any
    larger one, yields a colour.  A reflection is traced one level deeper
    than the surface that spawned it ([shade_with] uses its [trace] at
    [depth + 1] only), and at a depth of 5 or more [trace] returns black
    at once, whatever the ray and the scene. *)
Theorem trace_terminates r depth (extra k : nat) :
  trace_fuel (trace_fuel_for depth + extra) r depth = Some (trace r depth) /\
  trace_fuel (S extra) r (MAX_RAY_DEPTH + Z.of_nat k) = Some black /\
  trace r (MAX_RAY_DEPTH + Z.of_nat k) = black.
Proof.
  split; [|split].
  - apply trace_fuel_trace. unfold trace_fuel_for. lia.
  - simpl. replace (MAX_RAY_DEPTH <=? MAX_RAY_DEPTH + Z.of_nat k) with true
      by (symmetry; apply Z.leb_le; lia).
    reflexivity.
  - rewrite trace_unfold.
    replace (MAX_RAY_DEPTH <=? MAX_RAY_DEPTH + Z.of_nat k) with true
      by (symmetry; apply Z.leb_le; lia).
    reflexivity.
Qed.

End TraceFacts.

(** ** The nearest hit *)

Section NearestFacts.

Variable r : ray.t.

(** [(obj, sp)] is a hit of [r] in [l] than which no hit in [l] is
    strictly nearer. *)
Definition Nearest (l : list sphere.t) (p : sphere.t * spoint.t) : Prop :=
  In p.1 l /\ ray_sphere p.1 r = Some p.2 /\
  forall s' sp', In s' l -> ray_sphere s' r = Some sp' ->
    (sp'.(spoint.dist) <? p.2.(spoint.dist))%float = false.

(** What the loop of [trace] knows after the spheres [seen]. *)
Definition nearest_inv (seen : list sphere.t) (acc : option (sphere.t * spoint.t)) : Prop :=
  match acc with
  | None => forall s, In s seen -> ray_sphere s r = None
  | Some p => Nearest seen p
  end.

Lemma find_nearest_inv iter : forall seen acc,
  nearest_inv seen acc -> nearest_inv (seen ++ iter) (find_nearest iter r acc).
Proof.
  induction iter as [|s next IH]; intros seen acc Hinv; simpl.
  { rewrite app_nil_r. exact Hinv. }
  replace (seen ++ s :: next) with ((seen ++ [s]) ++ next)
    by (rewrite <- app_assoc; reflexivity).
  apply IH.
  destruct (ray_sphere s r) as [sp|] eqn:Hs.
  - destruct acc as [[o nsp]|]; simpl in Hinv.
    + destruct Hinv as (Hin & Hhit & Hmin). simpl in *.
      destruct (sp.(spoint.dist) <? nsp.(spoint.dist))%float eqn:Hlt.
      * repeat split; simpl.
        -- apply in_or_app. right. left. reflexivity.
        -- exact Hs.
        -- intros s' sp' Hin' Hs'. apply in_app_or in Hin' as [Hin'|[<-|[]]].
           ++ destruct (sp'.(spoint.dist) <? sp.(spoint.dist))%float eqn:E; [|reflexivity].
              rewrite <- (Hmin s' sp' Hin' Hs'). symmetry.
              eapply DoubleFacts.ltb_trans; eassumption.
           ++ rewrite Hs in Hs'. injection Hs' as <-. apply DoubleFacts.ltb_irrefl.
      * repeat split; simpl.
        -- apply in_or_app. left. exact Hin.
        -- exact Hhit.
        -- intros s' sp' Hin' Hs'. apply in_app_or in Hin' as [Hin'|[<-|[]]].
           ++ apply (Hmin s' sp' Hin' Hs').
           ++ rewrite Hs in Hs'. injection Hs' as <-. exact Hlt.
    + repeat split; simpl.
      * apply in_or_app. right. left. reflexivity.
      * exact Hs.
      * intros s' sp' Hin' Hs'. apply in_app_or in Hin' as [Hin'|[<-|[]]].
        -- rewrite (Hinv s' Hin') in Hs'. discriminate.
        -- rewrite Hs in Hs'. injection Hs' as <-. apply DoubleFacts.ltb_irrefl.
  - destruct acc as [[o nsp]|]; simpl in *.
    + destruct Hinv as (Hin & Hhit & Hmin). repeat split; simpl.
      * apply in_or_app. left. exact Hin.
      * exact Hhit.
      * intros s' sp' Hin' Hs'. apply in_app_or in Hin' as [Hin'|[<-|[]]].
        -- apply (Hmin s' sp' Hin' Hs').
        -- rewrite Hs in Hs'. discriminate.
    + intros s' Hin'. apply in_app_or in Hin' as [Hin'|[<-|[]]]; auto.
Qed.

Lemma find_nearest_spec obj_list :
  nearest_inv obj_list (find_nearest obj_list r None).
Proof. apply (find_nearest_inv obj_list [] None). intros s []. Qed.

Lemma hit_distances_not_nan_In obj_list s sp :
  hit_distances_not_nan obj_list r = true -> In s obj_list ->
  ray_sphere s r = Some sp -> Double.not_nan sp.(spoint.dist) = true.
Proof.
  unfold hit_distances_not_nan. rewrite forallb_forall. intros H Hin Hs.
  specialize (H s Hin). rewrite Hs in H. exact H.
Qed.

Lemma ray_sphere_not_below s sp :
  ray_sphere s r = Some sp -> (sp.(spoint.dist) <? ERR_MARGIN)%float = false.
Proof.
  intros H. destruct (ray_sphere_surface_point_aux s r sp H) as (t1 & t2 & _ & _ & _ & E). exact E.
Qed.

(** Two nearest hits of lists with the same spheres are at the same
    distance, when no hit distance is a NaN. *)
Lemma Nearest_distance_unique l l' p p' :
  Permutation l l' -> hit_distances_not_nan l r = true ->
  Nearest l p -> Nearest l' p' ->
  p'.2.(spoint.dist) = p.2.(spoint.dist).
Proof.
  intros Hperm Hnan (Hin & Hhit & Hmin) (Hin' & Hhit' & Hmin').
  assert (In p'.1 l) as Hin'l by (eapply Permutation_in; [symmetry|]; eassumption).
  assert (In p.1 l') as Hinl' by (eapply Permutation_in; eassumption).
  apply DoubleFacts.eqb_eq_not_below; [|eapply ray_sphere_not_below; eassumption].
  apply DoubleFacts.not_ltb_eqb.
  - exact (hit_distances_not_nan_In l p'.1 p'.2 Hnan Hin'l Hhit').
  - exact (hit_distances_not_nan_In l p.1 p.2 Hnan Hin Hhit).
  - apply (Hmin p'.1 p'.2 Hin'l Hhit').
  - apply (Hmin' p.1 p.2 Hinl' Hhit).
Qed.

End NearestFacts.

(** C4, counterexample: [far_sphere] is so far from [diagonal_ray] that its
    discriminant is [inf - inf], a NaN, which passes every test of
    [ray_sphere]: it counts as hit, at a NaN distance.  Listed first it
    stays the nearest, since [0.0043 < NaN] is false; listed second it
    loses to [near_sphere].  So the distance of the shaded sphere depends on
    the order of the list, and in the first order it is not the least. *)
Lemma nearest_depends_on_order :
  Permutation [far_sphere; near_sphere] [near_sphere; far_sphere] /\
  nearest_distance [far_sphere; near_sphere] diagonal_ray = Some nan /\
  nearest_distance [near_sphere; far_sphere] diagonal_ray
    = Some 0.0042928932188134525%float /\
  (0.0042928932188134525 =? nan)%float = false /\
  (spoint.dist <$> ray_sphere near_sphere diagonal_ray) = Some 0.0042928932188134525%float /\
  (nan <=? 0.0042928932188134525)%float = false.
Proof. split; [apply perm_swap | vm_compute; auto 6]. Qed.

(** C4, as amended: below the recursion limit, [trace] returns black when
    the ray hits no sphere, and otherwise the shade of a sphere the ray
    hits, than whose distance no hit is strictly nearer.  That distance
    is the same for every order of the sphere list, provided no sphere is
    hit at a NaN distance. *)
Theorem trace_shades_nearest pow lights obj_list r depth :
  depth < MAX_RAY_DEPTH ->
  ((forall s, In s obj_list -> ray_sphere s r = None) ->
     trace pow obj_list lights r depth = black) /\
  (forall s0 sp0, In s0 obj_list -> ray_sphere s0 r = Some sp0 ->
     exists obj sp,
       In obj obj_list /\ ray_sphere obj r = Some sp /\
       trace pow obj_list lights r depth = shade pow obj_list lights obj sp depth /\
       (forall s' sp', In s' obj_list -> ray_sphere s' r = Some sp' ->
          (sp'.(spoint.dist) <? sp.(spoint.dist))%float = false) /\
       nearest_distance obj_list r = Some sp.(spoint.dist) /\
       (forall obj_list', Permutation obj_list obj_list' ->
          hit_distances_not_nan obj_list r = true ->
          nearest_distance obj_list' r = Some sp.(spoint.dist))).
Proof.
  intros Hdepth. apply Z.leb_gt in Hdepth.
  pose proof (find_nearest_spec r obj_list) as Hinv.
  rewrite trace_unfold, Hdepth. unfold nearest_distance.
  destruct (find_nearest obj_list r None) as [[obj sp]|] eqn:Hfind; simpl in Hinv.
  - split.
    + intros Hnone. destruct Hinv as (Hin & Hhit & _). simpl in *.
      rewrite (Hnone obj Hin) in Hhit. discriminate.
    + intros s0 sp0 _ _. exists obj, sp.
      pose proof Hinv as (Hin & Hhit & Hmin). simpl in *.
      repeat split; auto.
      intros obj_list' Hperm Hnan.
      pose proof (find_nearest_spec r obj_list') as Hinv'.
      destruct (find_nearest obj_list' r None) as [[obj' sp']|]; simpl in *.
      * f_equal.
        apply (Nearest_distance_unique r obj_list obj_list' (obj, sp) (obj', sp'));
          assumption.
      * rewrite (Hinv' obj) in Hhit; [discriminate|].
        eapply Permutation_in; eassumption.
  - split; [reflexivity|].
    intros s0 sp0 Hin0 Hs0. rewrite (Hinv s0 Hin0) in Hs0. discriminate.
Qed.

(** The amended C4 at the built-in scene, its reversal, and the ray through
    the middle of the image. *)
Lemma trace_shades_nearest_witness :
  exists obj sp,
    In obj scene_spheres /\ ray_sphere obj centre_ray = Some sp /\
    trace pow_integral scene_spheres scene_lights centre_ray 0
      = shade pow_integral scene_spheres scene_lights obj sp 0 /\
    nearest_distance (rev scene_spheres) centre_ray = Some sp.(spoint.dist).
Proof.
  destruct (trace_shades_nearest pow_integral scene_lights scene_spheres centre_ray 0)
    as [_ H]; [reflexivity|].
  edestruct H as (obj & sp & Hin & Hhit & Htrace & _ & _ & Hperm).
  - left. reflexivity.
  - vm_compute. reflexivity.
  - exists obj, sp. repeat split; try assumption.
    apply Hperm; [apply Permutation_rev | vm_compute; reflexivity].
Defined.

(** ** The shader *)

Section ShadeFacts.

Variable pow : double -> double -> double.
Variable obj_list : list sphere.t.
Variable lights : list vec3.t.

Lemma in_shadow_existsb iter shadow_ray :
  in_shadow iter shadow_ray
  = existsb (fun s => bool_decide (is_Some (ray_sphere s shadow_ray))) iter.
Proof.
  induction iter as [|s next IH]; simpl; [reflexivity|].
  rewrite ray_sphere_hit_iff, IH.
  destruct (bool_decide _); reflexivity.
Qed.

Lemma shade_light_spec obj sp col light :
  shade_light pow obj_list obj sp col light =
    if occluded obj_list sp light then col else vadd col (phong pow obj sp light).
Proof.
  unfold shade_light, occluded, to_light. rewrite in_shadow_existsb.
  destruct (existsb _ obj_list); reflexivity.
Qed.

Lemma shade_lights_spec obj sp ls : forall col,
  fold_left (shade_light pow obj_list obj sp) ls col =
    fold_left vadd (map (phong pow obj sp)
                      (List.filter (fun light => negb (occluded obj_list sp light)) ls)) col.
Proof.
  induction ls as [|light ls IH]; intros col; simpl; [reflexivity|].
  rewrite IH, shade_light_spec.
  destruct (occluded obj_list sp light); reflexivity.
Qed.

(** C5: [shade] returns the sum, over the lights no sphere occludes, of the
    diffuse term times the material colour plus the specular term (computed
    with the normalised light direction, the specular term added to all
    three channels alike), plus, when the reflectivity is positive, the
    reflectivity times the colour traced one level deeper along the view
    reflection scaled by [RAY_MAG]. *)
Theorem shade_refines_spec obj sp depth :
  shade pow obj_list lights obj sp depth = shade_spec pow obj_list lights obj sp depth.
Proof.
  rewrite shade_unfold. unfold shade_spec, vsum. cbv zeta.
  rewrite shade_lights_spec.
  destruct (0.0 <? _)%float; [|reflexivity].
  unfold vadd, reflection_ray. simpl.
  rewrite !(DoubleFacts.mul_comm (material.refl (sphere.mat obj))). reflexivity.
Qed.

(** *** Colours are never negative *)

Hypothesis pow_nonneg : forall x y,
  Double.nonneg x -> (0.0 <? y)%float = true -> Double.nonneg (pow x y).

Hypothesis colours_nonneg :
  Forall (fun s => vec3_nonneg s.(sphere.mat).(material.col)) obj_list.

Lemma shade_light_nonneg obj sp col light :
  vec3_nonneg obj.(sphere.mat).(material.col) -> vec3_nonneg col ->
  vec3_nonneg (shade_light pow obj_list obj sp col light).
Proof.
  intros (Hx & Hy & Hz) (Cx & Cy & Cz). unfold shade_light.
  destruct (in_shadow _ _); [repeat split; assumption|].
  set (ldir := NORMALIZE _).
  assert (Double.nonneg
            (if (0.0 <? material.spow (sphere.mat obj))%float
             then pow (Double.MAX (DOT (spoint.vref sp) ldir) 0.0)
                      (material.spow (sphere.mat obj))
             else 0.0%float)) as Hspec.
  { destruct (0.0 <? _)%float eqn:E.
    - apply pow_nonneg; [apply DoubleFacts.MAX_zero_nonneg | exact E].
    - apply DoubleFacts.zero_nonneg. }
  repeat split; simpl;
    repeat first [ apply DoubleFacts.add_nonneg | apply DoubleFacts.mul_nonneg
                 | apply DoubleFacts.MAX_zero_nonneg | assumption ].
Qed.

Lemma shade_lights_nonneg obj sp ls : forall col,
  vec3_nonneg obj.(sphere.mat).(material.col) -> vec3_nonneg col ->
  vec3_nonneg (fold_left (shade_light pow obj_list obj sp) ls col).
Proof.
  induction ls as [|light ls IH]; intros col Hobj Hcol; simpl; [exact Hcol|].
  apply IH; [exact Hobj|]. apply shade_light_nonneg; assumption.
Qed.

Lemma black_nonneg : vec3_nonneg black.
Proof. repeat split. Qed.

Lemma shade_with_nonneg tr obj sp depth c :
  (forall r d c', tr r d = Some c' -> vec3_nonneg c') ->
  vec3_nonneg obj.(sphere.mat).(material.col) ->
  shade_with pow obj_list lights tr obj sp depth = Some c -> vec3_nonneg c.
Proof.
  intros Htr Hobj. unfold shade_with.
  pose proof (shade_lights_nonneg obj sp lights (vec3.mk 0 0 0) Hobj black_nonneg)
    as (Cx & Cy & Cz).
  destruct (0.0 <? _)%float eqn:E.
  - destruct (tr _ _) as [rcol|] eqn:Hr; [|discriminate].
    destruct (Htr _ _ _ Hr) as (Rx & Ry & Rz).
    pose proof (DoubleFacts.ltb_asym _ _ E) as Hrefl.
    intros [= <-].
    repeat split; simpl;
      repeat first [ apply DoubleFacts.add_nonneg | apply DoubleFacts.mul_nonneg
                   | assumption ].
  - intros [= <-]. repeat split; assumption.
Qed.

Lemma trace_fuel_nonneg fuel : forall r depth c,
  trace_fuel pow obj_list lights fuel r depth = Some c -> vec3_nonneg c.
Proof.
  induction fuel as [|fuel IH]; intros r depth c; simpl; [discriminate|].
  destruct (MAX_RAY_DEPTH <=? depth); [intros [= <-]; apply black_nonneg|].
  pose proof (find_nearest_spec r obj_list) as Hinv.
  destruct (find_nearest obj_list r None) as [[obj sp]|];
    [|intros [= <-]; apply black_nonneg].
  destruct Hinv as (Hin & _). simpl in Hin.
  apply shade_with_nonneg; [exact IH|].
  rewrite Forall_forall in colours_nonneg. apply colours_nonneg.
  apply list_elem_of_In. exact Hin.
Qed.

Lemma trace_nonneg r depth : vec3_nonneg (trace pow obj_list lights r depth).
Proof.
  apply (trace_fuel_nonneg (trace_fuel_for depth) r depth).
  apply trace_fuel_trace. unfold trace_fuel_for. lia.
Qed.

Lemma shade_nonneg obj sp depth :
  In obj obj_list -> vec3_nonneg (shade pow obj_list lights obj sp depth).
Proof.
  intros Hin. unfold shade.
  destruct (shade_with pow obj_list lights _ obj sp depth) as [c|] eqn:E;
    [|apply black_nonneg].
  simpl. eapply shade_with_nonneg; [| |exact E].
  - intros r d c' [= <-]. apply trace_nonneg.
  - rewrite Forall_forall in colours_nonneg. apply colours_nonneg.
    apply list_elem_of_In. exact Hin.
Qed.

End ShadeFacts.

(** C10, counterexample: a reflectivity of [+infinity] is [>= 0], and so are
    the colour (1, 1, 1) and the specular power 0 of [mirror_sphere].  The ray
    hits the sphere, the reflected ray hits nothing and brings back black,
    and [0 * infinity] makes every component of the result a NaN, which is
    not [>= 0]. *)
Lemma trace_nan_component :
  (0 <=? mirror_sphere.(sphere.mat).(material.refl))%float = true /\
  (0 <=? mirror_sphere.(sphere.mat).(material.spow))%float = true /\
  (0 <=? mirror_sphere.(sphere.mat).(material.col).(vec3.x))%float = true /\
  (0 <=? mirror_sphere.(sphere.mat).(material.col).(vec3.y))%float = true /\
  (0 <=? mirror_sphere.(sphere.mat).(material.col).(vec3.z))%float = true /\
  trace pow_integral [mirror_sphere] [] head_on_ray 0 = vec3.mk nan nan nan /\
  (0 <=? nan)%float = false.
Proof. vm_compute. auto 8. Qed.


(** ** The jitter tables *)

Lemma land_MASK_bounds a : 0 <= Z.land a MASK <= 1023.
Proof.
  change MASK with (Z.ones 10). rewrite Z.land_ones by lia.
  pose proof (Z.mod_pos_bound a (2 ^ 10)). lia.
Qed.

Lemma lookup_masked {A} (table : list A) a :
  length table = Z.to_nat NRAN -> is_Some (table !! Z.to_nat (Z.land a MASK)).
Proof.
  intros Hlen. apply lookup_lt_is_Some. rewrite Hlen.
  pose proof (land_MASK_bounds a). unfold NRAN. lia.
Qed.

(** C9: every index [jitter] computes, the two into [irand] and the two
    into [urand] (which add an entry read from [irand]), is masked with
    [MASK] = 1023 and lies in [0, 1023]; on tables of [NRAN] = 1024 entries
    all four reads are in bounds and [jitter] returns the [x] of one [urand]
    entry and the [y] of another.  This holds for all pixel coordinates and
    sample indices. *)
Theorem jitter_indices_in_bounds (urand : list vec3.t) (irand : list Z) (x y s : Z) :
  length urand = Z.to_nat NRAN -> length irand = Z.to_nat NRAN ->
  MASK = 1023 /\
  exists rx ux ry uy,
    0 <= irand_index x s <= 1023 /\
    irand !! Z.to_nat (irand_index x s) = Some rx /\
    0 <= urand_index x y rx <= 1023 /\
    urand !! Z.to_nat (urand_index x y rx) = Some ux /\
    0 <= irand_index y s <= 1023 /\
    irand !! Z.to_nat (irand_index y s) = Some ry /\
    0 <= urand_index y x ry <= 1023 /\
    urand !! Z.to_nat (urand_index y x ry) = Some uy /\
    jitter urand irand x y s = Some (vec3.mk ux.(vec3.x) uy.(vec3.y) 0).
Proof.
  intros Hu Hi. split; [reflexivity|].
  unfold jitter, irand_index, urand_index.
  destruct (lookup_masked irand (x + s) Hi) as [rx Hrx].
  destruct (lookup_masked urand (x + Z.shiftl y 2 + rx) Hu) as [ux Hux].
  destruct (lookup_masked irand (y + s) Hi) as [ry Hry].
  destruct (lookup_masked urand (y + Z.shiftl x 2 + ry) Hu) as [uy Huy].
  exists rx, ux, ry, uy.
  rewrite Hrx. simpl. rewrite Hux. simpl. rewrite Hry. simpl. rewrite Huy. simpl.
  repeat split; auto; apply land_MASK_bounds.
Qed.

(** C9 on the flat tables, at a pixel and sample of an 8 by 6 image. *)
Lemma jitter_indices_in_bounds_witness :
  exists rx ux ry uy,
    0 <= irand_index 4 1 <= 1023 /\
    flat_irand !! Z.to_nat (irand_index 4 1) = Some rx /\
    0 <= urand_index 4 3 rx <= 1023 /\
    flat_urand !! Z.to_nat (urand_index 4 3 rx) = Some ux /\
    0 <= irand_index 3 1 <= 1023 /\
    flat_irand !! Z.to_nat (irand_index 3 1) = Some ry /\
    0 <= urand_index 3 4 ry <= 1023 /\
    flat_urand !! Z.to_nat (urand_index 3 4 ry) = Some uy /\
    jitter flat_urand flat_irand 4 3 1 = Some (vec3.mk ux.(vec3.x) uy.(vec3.y) 0).
Proof.
  apply (jitter_indices_in_bounds flat_urand flat_irand 4 3 1); reflexivity.
Defined.

(** ** Rendering loops *)

Lemma bind_run {A B} (m : Render A) (k : A -> Render B) sf :
  (m ≫= k) sf = match m sf with
                | Some (a, sf') => k a sf'
                | None => None
                end.
Proof. reflexivity. Qed.

Lemma for_loop_ext {A} (body body' : Z -> A -> Render A) n : forall i a sf,
  (forall i a sf, body i a sf = body' i a sf) ->
  for_loop n i body a sf = for_loop n i body' a sf.
Proof.
  induction n as [|n IH]; intros i a sf H; simpl; [reflexivity|].
  rewrite !bind_run, H. destruct (body' i a sf) as [[a' sf']|]; [|reflexivity].
  apply IH, H.
Qed.

Lemma for_loop_skip {A} (body : Z -> A -> Render A) n : forall i a sf,
  (forall i a sf, body i a sf = Some (a, sf)) ->
  for_loop n i body a sf = Some (a, sf).
Proof.
  induction n as [|n IH]; intros i a sf H; simpl; [reflexivity|].
  rewrite bind_run, H. apply IH, H.
Qed.

Section RenderFacts.

Variable pow : double -> double -> double.
Variable obj_list : list sphere.t.
Variable lights : list vec3.t.
Variable cam : camera.t.
Variable xres yres : Z.
Variable urand : list vec3.t.
Variable irand : list Z.
Variable LITTLE_ENDIAN : bool.

Local Abbreviation pixel :=
  (pixel pow obj_list lights cam xres yres urand irand LITTLE_ENDIAN).
Local Abbreviation render_scanline :=
  (render_scanline pow obj_list lights cam xres yres urand irand LITTLE_ENDIAN).
Local Abbreviation render :=
  (render pow obj_list lights cam xres yres urand irand LITTLE_ENDIAN).
Local Abbreviation thread_func :=
  (thread_func pow obj_list lights cam xres yres urand irand LITTLE_ENDIAN).

(** One row of the sequential [render], whose pointer stands at the start
    of the row, is [render_scanline] of that row. *)
Lemma render_row (xsz j samples : Z) n : forall i fb sf,
  for_loop n i
    (fun i '(fb, p) => v ← pixel i j samples; fb' ← lift (store fb p v); mret (fb', p + 1))
    (fb, j * xsz + i) sf
  = (fun '(fb', sf') => ((fb', j * xsz + i + Z.of_nat n), sf')) <$>
      for_loop n i (fun i fb => v ← pixel i j samples; lift (store fb (j * xsz + i) v)) fb sf.
Proof.
  induction n as [|n IH]; intros i fb sf.
  { simpl. unfold mret, Render_ret. simpl. do 3 f_equal. lia. }
  cbn [for_loop]. rewrite !bind_run.
  destruct (pixel i j samples sf) as [[v sf1]|]; [|reflexivity].
  rewrite ?bind_run. unfold lift.
  destruct (store fb (j * xsz + i) v) as [fb1|]; [|reflexivity].
  unfold mret at 1, Render_ret at 1.
  replace (j * xsz + i + 1) with (j * xsz + (i + 1)) by lia.
  rewrite IH.
  destruct (for_loop n (i + 1) _ fb1 sf1) as [[fb' sf']|]; [|reflexivity].
  simpl. do 3 f_equal. lia.
Qed.

Lemma render_rows (xsz ysz samples : Z) m : forall j fb sf,
  0 <= xsz ->
  for_loop m j
    (fun j st =>
       for_loop (Z.to_nat xsz) 0
         (fun i '(fb, p) =>
            v ← pixel i j samples; fb' ← lift (store fb p v); mret (fb', p + 1))
         st)
    (fb, j * xsz) sf
  = (fun '(fb', sf') => ((fb', (j + Z.of_nat m) * xsz), sf')) <$>
      for_loop m j (fun j fb => render_scanline xsz ysz j fb samples) fb sf.
Proof.
  induction m as [|m IH]; intros j fb sf Hx.
  { simpl. unfold mret, Render_ret. simpl. do 3 f_equal. lia. }
  cbn [for_loop]. rewrite !bind_run.
  replace (j * xsz) with (j * xsz + 0) at 1 by lia.
  rewrite render_row. fold (render_scanline xsz ysz j fb samples).
  destruct (render_scanline xsz ysz j fb samples sf) as [[fb1 sf1]|]; [|reflexivity].
  simpl.
  replace (j * xsz + 0 + Z.of_nat (Z.to_nat xsz)) with ((j + 1) * xsz) by lia.
  rewrite IH by assumption.
  destruct (for_loop m (j + 1) _ fb1 sf1) as [[fb' sf']|]; [|reflexivity].
  simpl. do 3 f_equal. lia.
Qed.

(** The sequential [render] fills the buffer as the scanlines
    [0 .. ysz-1], rendered in turn, do. *)
Lemma render_scanlines (xsz ysz samples : Z) fb sf :
  (st ← render xsz ysz fb samples; mret st.1) sf
  = for_loop (Z.to_nat ysz) 0 (fun j fb => render_scanline xsz ysz j fb samples) fb sf.
Proof.
  rewrite bind_run. unfold render.
  destruct (Z.le_gt_cases 0 xsz) as [Hx|Hx].
  - change (fb, 0) with (fb, 0 * xsz). rewrite (render_rows xsz ysz samples) by assumption.
    destruct (for_loop (Z.to_nat ysz) 0 _ fb sf) as [[fb' sf']|]; reflexivity.
  - rewrite !for_loop_skip; try reflexivity.
    + intros j a sf0. unfold render_scanline.
      replace (Z.to_nat xsz) with 0%nat by lia. reflexivity.
    + intros j a sf0. replace (Z.to_nat xsz) with 0%nat by lia. reflexivity.
Qed.

End RenderFacts.

(** With one worker the thread table, when it is defined, holds the single
    range of all [yres] scanlines. *)
Lemma cray_mt_threads_one yres threads :
  cray_mt_threads 1 yres = Some threads -> threads = [thread_data.mk 0 yres].
Proof.
  unfold cray_mt_threads.
  destruct (yres <? 1) eqn:E.
  - apply Z.ltb_lt in E. replace (Z.to_nat yres) with 0%nat by lia.
    simpl. discriminate.
  - simpl. change (Double.to_int 0) with (Some 0). simpl.
    destruct (Double.to_int _); simpl; [|discriminate].
    rewrite Z.sub_0_r. congruence.
Qed.

(** C2: whenever the thread table of [cray_mt] with one worker is defined,
    the multithreaded render and the single-threaded render of the same
    scene, image size, sample count and jitter tables, started on the same
    buffer and the same value of [sf], end alike: both are undefined, or both
    leave the same buffer, pixel for pixel, and the same [sf]. *)
Theorem one_worker_render_is_sequential pow obj_list lights cam urand irand
    LITTLE_ENDIAN xres yres rays_per_pixel pixels sf threads :
  cray_mt_threads 1 yres = Some threads ->
  cray_mt_render pow obj_list lights cam urand irand LITTLE_ENDIAN
    1 xres yres rays_per_pixel pixels sf
  = cray_f_render pow obj_list lights cam urand irand LITTLE_ENDIAN
      xres yres rays_per_pixel pixels sf.
Proof.
  intros Hthreads. pose proof (cray_mt_threads_one yres threads Hthreads) as ->.
  unfold cray_mt_render, cray_f_render.
  rewrite render_scanlines, bind_run, Hthreads. simpl.
  rewrite bind_run. unfold thread_func. simpl.
  rewrite (for_loop_ext _
             (fun j fb => render_scanline pow obj_list lights cam xres yres urand irand
                            LITTLE_ENDIAN xres yres j fb rays_per_pixel)).
  - destruct (for_loop _ _ _ _ _) as [[fb' sf']|]; reflexivity.
  - intros i a sf0. rewrite Z.add_0_r. reflexivity.
Qed.

(** C2 on a frame of 8 by 6 pixels of the built-in scene, two samples per
    pixel. *)
Lemma one_worker_render_is_sequential_witness :
  cray_mt_render pow_integral scene_spheres scene_lights scene_cam flat_urand flat_irand
    true 1 8 6 2 (replicate 48 0) 0%float
  = cray_f_render pow_integral scene_spheres scene_lights scene_cam flat_urand flat_irand
      true 8 6 2 (replicate 48 0) 0%float.
Proof.
  apply (one_worker_render_is_sequential _ _ _ _ _ _ _ _ _ _ _ _
           [thread_data.mk 0 6]).
  vm_compute. reflexivity.
Defined.

(** ** The scanline renderer *)

Section PixelFacts.

Variable pow : double -> double -> double.
Variable obj_list : list sphere.t.
Variable lights : list vec3.t.
Variable cam : camera.t.
Variable xres yres : Z.
Variable urand : list vec3.t.
Variable irand : list Z.
Variable LITTLE_ENDIAN : bool.

Local Abbreviation sample_colours := (sample_colours pow obj_list lights cam xres yres urand irand).
Local Abbreviation add_sample := (add_sample pow obj_list lights cam xres yres urand irand).
Local Abbreviation pixel_colour := (pixel_colour pow obj_list lights cam xres yres urand irand).
Local Abbreviation pixel :=
  (pixel pow obj_list lights cam xres yres urand irand LITTLE_ENDIAN).
Local Abbreviation render_scanline :=
  (render_scanline pow obj_list lights cam xres yres urand irand LITTLE_ENDIAN).

Lemma sf_init_idem sf : sf_init xres (sf_init xres sf) = sf_init xres sf.
Proof.
  unfold sf_init. destruct (sf =? 0.0)%float eqn:E.
  - destruct (1.5 / Double.of_int xres =? 0.0)%float; reflexivity.
  - rewrite E. reflexivity.
Qed.

(** A call of [get_sample_pos] leaves [sf] initialised and computes with
    the initialised value. *)
Lemma get_sample_pos_run x y s sf :
  get_sample_pos xres yres urand irand x y s sf
  = (fun pt => (pt, sf_init xres sf)) <$> sample_pos xres yres urand irand (sf_init xres sf) x y s.
Proof.
  unfold get_sample_pos. destruct (sample_pos _ _ _ _ _ _ _ _); reflexivity.
Qed.

Lemma sample_loop_run i sl n : forall s acc sf,
  for_loop (S n) s (add_sample i sl) acc sf
  = (fun cols => (fold_left vadd cols acc, sf_init xres sf)) <$>
      sample_colours (sf_init xres sf) i sl (S n) s.
Proof.
  induction n as [|n IH]; intros s acc sf.
  - cbn [for_loop]. unfold add_sample, get_primary_ray.
    rewrite !bind_run, get_sample_pos_run. simpl.
    destruct (sample_pos _ _ _ _ _ _ _ _); reflexivity.
  - remember (S n) as m. cbn [for_loop]. rewrite bind_run.
    unfold add_sample at 1, get_primary_ray. rewrite !bind_run, get_sample_pos_run.
    simpl. destruct (sample_pos _ _ _ _ _ _ _ _) as [pt|]; [|reflexivity].
    simpl. subst m. rewrite IH, sf_init_idem.
    destruct (sample_colours _ _ _ (S n) _); reflexivity.
Qed.

Lemma pixel_colour_run i sl samples sf :
  1 <= samples ->
  pixel_colour i sl samples sf
  = (fun cols => (average cols samples, sf_init xres sf)) <$>
      sample_colours (sf_init xres sf) i sl (Z.to_nat samples) 0.
Proof.
  intros Hs. destruct (Z.to_nat samples) as [|n] eqn:En; [lia|].
  unfold pixel_colour. rewrite bind_run, En, sample_loop_run.
  destruct (sample_colours _ _ _ (S n) _); reflexivity.
Qed.

Lemma pixel_run i sl samples sf :
  1 <= samples ->
  pixel i sl samples sf
  = (cols ← sample_colours (sf_init xres sf) i sl (Z.to_nat samples) 0;
     v ← pack_pixel LITTLE_ENDIAN (average cols samples);
     Some (v, sf_init xres sf)).
Proof.
  intros Hs. unfold pixel. rewrite bind_run, pixel_colour_run by assumption.
  destruct (sample_colours _ _ _ _ _) as [cols|]; [|reflexivity].
  simpl. unfold lift. destruct (pack_pixel _ _); reflexivity.
Qed.

Lemma sample_colours_length sf x y n : forall s cols,
  sample_colours sf x y n s = Some cols -> length cols = n.
Proof.
  induction n as [|n IH]; intros s cols; simpl.
  - intros [= <-]. reflexivity.
  - destruct (sample_pos _ _ _ _ _ _ _ _); [|discriminate]. simpl.
    destruct (sample_colours sf x y n (s + 1)) as [rest|] eqn:E; [|discriminate].
    simpl. intros [= <-]. simpl. f_equal. eapply IH, E.
Qed.

Lemma store_Some fb idx v fb' :
  store fb idx v = Some fb' ->
  0 <= idx /\ (Z.to_nat idx < length fb)%nat /\ fb' = <[Z.to_nat idx := v]> fb.
Proof.
  unfold store. destruct (0 <=? idx) eqn:E1; [|discriminate].
  destruct (idx <? Z.of_nat (length fb)) eqn:E2; [|discriminate].
  simpl. intros [= <-]. apply Z.leb_le in E1. apply Z.ltb_lt in E2.
  repeat split; [assumption | lia].
Qed.

(** What the pixel loop of [render_scanline] has done after the [n] pixels
    from column [i0] on. *)
Lemma scanline_loop (xsz sl samples : Z) n : forall i0 fb sf fb' sf',
  1 <= samples ->
  for_loop n i0 (fun i fb => v ← pixel i sl samples; lift (store fb (sl * xsz + i) v)) fb sf
    = Some (fb', sf') ->
  length fb' = length fb /\
  (forall i, i0 <= i < i0 + Z.of_nat n ->
     exists cols v,
       sample_colours (sf_init xres sf) i sl (Z.to_nat samples) 0 = Some cols /\
       pack_pixel LITTLE_ENDIAN (average cols samples) = Some v /\
       fb' !! Z.to_nat (sl * xsz + i) = Some v) /\
  (forall k : nat,
     (forall i, i0 <= i < i0 + Z.of_nat n -> k <> Z.to_nat (sl * xsz + i)) ->
     fb' !! k = fb !! k).
Proof.
  induction n as [|n IH]; intros i0 fb sf fb' sf' Hs.
  { simpl. intros [= <- <-].
    split; [reflexivity|]. split; [intros i Hi; lia | intros k _; reflexivity]. }
  cbn [for_loop]. rewrite !bind_run, pixel_run by assumption.
  destruct (sample_colours _ i0 sl _ _) as [cols|] eqn:Hcols; [|discriminate]. simpl.
  destruct (pack_pixel _ _) as [v|] eqn:Hv; [|discriminate]. simpl.
  unfold lift at 1.
  destruct (store fb (sl * xsz + i0) v) as [fb1|] eqn:Hst; [|discriminate].
  apply store_Some in Hst as (Hidx & Hlt & ->).
  intros Hloop. apply IH in Hloop as (Hlen & Hpix & Hframe); [|assumption].
  rewrite sf_init_idem in Hpix. rewrite length_insert in Hlen.
  split; [exact Hlen|]. split.
  - intros i Hi. destruct (Z.eq_dec i i0) as [->|Hne].
    + exists cols, v. repeat split; [assumption..|].
      rewrite Hframe; [apply list_lookup_insert_eq, Hlt|].
      intros i Hi'. lia.
    + apply Hpix. lia.
  - intros k Hk. rewrite Hframe; [|intros i Hi; apply Hk; lia].
    apply list_lookup_insert_ne. intros <-. apply (Hk i0); [lia|reflexivity].
Qed.

Lemma pack_pixel_Some rgb v :
  pack_pixel LITTLE_ENDIAN rgb = Some v ->
  exists r g b,
    Double.to_uint32 (Double.MIN rgb.(vec3.x) 1.0 * 255.0)%float = Some r /\
    Double.to_uint32 (Double.MIN rgb.(vec3.y) 1.0 * 255.0)%float = Some g /\
    Double.to_uint32 (Double.MIN rgb.(vec3.z) 1.0 * 255.0)%float = Some b /\
    v = Z.lor (Z.lor (Z.shiftl (Z.land r 255) (RSHIFT LITTLE_ENDIAN))
                     (Z.shiftl (Z.land g 255) GSHIFT))
              (Z.shiftl (Z.land b 255) (BSHIFT LITTLE_ENDIAN)).
Proof.
  unfold pack_pixel, pack_channel.
  destruct (Double.to_uint32 (Double.MIN rgb.(vec3.x) 1.0 * 255.0)%float) as [r|];
    [|discriminate]. simpl.
  destruct (Double.to_uint32 (Double.MIN rgb.(vec3.y) 1.0 * 255.0)%float) as [g|];
    [|discriminate]. simpl.
  destruct (Double.to_uint32 (Double.MIN rgb.(vec3.z) 1.0 * 255.0)%float) as [b|];
    [|discriminate]. simpl.
  intros [= <-]. exists r, g, b. auto.
Qed.

End PixelFacts.

(** C7, counterexample: in the 8 by 6 image of [dark_sphere], the one
    sample of pixel (4, 1) is traced to the colour -0.9885...; [MIN] with 1.0
    leaves it as it is, the value scaled by 255 is -252.07..., outside
    [0, 255], and its conversion to [uint32_t] is undefined.  Clamped to
    [0, 1] the channel would be 0. *)
Lemma scanline_negative_channel :
  exists cols,
    sample_colours pow_integral [dark_sphere] scene_lights scene_cam 8 6
      flat_urand flat_irand (sf_init 8 0) 4 1 1 0 = Some cols /\
    (average cols 1).(vec3.x) = (-0.98852087849143211)%float /\
    Double.MIN (average cols 1).(vec3.x) 1.0 = (-0.98852087849143211)%float /\
    (Double.MIN (average cols 1).(vec3.x) 1.0 * 255.0 <? 0)%float = true /\
    clamp01 (average cols 1).(vec3.x) = 0%float /\
    render_scanline pow_integral [dark_sphere] scene_lights scene_cam 8 6
      flat_urand flat_irand true 8 6 1 (replicate 48 0) 1 0%float = None.
Proof. eexists. vm_compute. auto 7. Qed.

(** C7, as amended: for [samples >= 1], a run of [render_scanline] that is
    defined leaves in slot [row * width + column] of the buffer, for every
    column of the row, the pixel packed from the average of the colours
    traced along the [samples] primary rays of that pixel (their sum times
    [1 / samples]; the position of sample 0 is not jittered, that of every
    other sample is).  Each averaged channel is capped at 1.0 by [MIN] and
    not raised to 0, multiplied by 255, converted to [uint32_t], masked to
    its low 8 bits and shifted to its place.  The slots of other rows keep
    their values. *)
Theorem render_scanline_pixels pow obj_list lights cam xres yres urand irand
    LITTLE_ENDIAN xsz ysz sl fb samples sf fb' sf' :
  1 <= samples ->
  render_scanline pow obj_list lights cam xres yres urand irand LITTLE_ENDIAN
    xsz ysz sl fb samples sf = Some (fb', sf') ->
  length fb' = length fb /\
  (forall i, 0 <= i < xsz ->
     exists cols r g b,
       sample_colours pow obj_list lights cam xres yres urand irand
         (sf_init xres sf) i sl (Z.to_nat samples) 0 = Some cols /\
       length cols = Z.to_nat samples /\
       Double.to_uint32 (Double.MIN (average cols samples).(vec3.x) 1.0 * 255.0)%float
         = Some r /\
       Double.to_uint32 (Double.MIN (average cols samples).(vec3.y) 1.0 * 255.0)%float
         = Some g /\
       Double.to_uint32 (Double.MIN (average cols samples).(vec3.z) 1.0 * 255.0)%float
         = Some b /\
       fb' !! Z.to_nat (sl * xsz + i)
         = Some (Z.lor (Z.lor (Z.shiftl (Z.land r 255) (RSHIFT LITTLE_ENDIAN))
                              (Z.shiftl (Z.land g 255) GSHIFT))
                       (Z.shiftl (Z.land b 255) (BSHIFT LITTLE_ENDIAN)))) /\
  (forall k : nat,
     (forall i, 0 <= i < xsz -> k <> Z.to_nat (sl * xsz + i)) -> fb' !! k = fb !! k) /\
  (forall sf0 x y,
     sample_pos xres yres urand irand sf0 x y 0
       = Some (vec3.mk (Double.of_int x / Double.of_int xres - 0.5)
                       (- (Double.of_int y / Double.of_int yres - 0.65) / aspect) 0)%float) /\
  (forall sf0 x y s, s <> 0 ->
     sample_pos xres yres urand irand sf0 x y s
       = (jt ← jitter urand irand x y s;
          Some (vec3.mk (Double.of_int x / Double.of_int xres - 0.5
                         + jt.(vec3.x) * sf0)
                        (- (Double.of_int y / Double.of_int yres - 0.65) / aspect
                         + jt.(vec3.y) * sf0 / aspect) 0)%float)).
Proof.
  intros Hs Hrun. unfold render_scanline in Hrun.
  apply (scanline_loop pow obj_list lights cam xres yres urand irand LITTLE_ENDIAN
           xsz sl samples) in Hrun as (Hlen & Hpix & Hframe); [|assumption].
  split; [exact Hlen|]. split; [|split; [|split]].
  - intros i Hi. destruct (Hpix i) as (cols & v & Hcols & Hv & Hfb); [lia|].
    apply pack_pixel_Some in Hv as (r & g & b & Hr & Hg & Hb & ->).
    exists cols, r, g, b. repeat split; try assumption.
    eapply sample_colours_length, Hcols.
  - intros k Hk. apply Hframe. intros i Hi. apply Hk. lia.
  - intros sf0 x y. reflexivity.
  - intros sf0 x y s Hne. unfold sample_pos.
    destruct (s =? 0) eqn:E; [apply Z.eqb_eq in E; contradiction | reflexivity].
Qed.

(** The amended C7 on row 3 of an 8 by 6 frame of the built-in scene, two
    samples per pixel. *)
Lemma render_scanline_pixels_witness :
  exists fb' sf',
    render_scanline pow_integral scene_spheres scene_lights scene_cam 8 6
      flat_urand flat_irand true 8 6 3 (replicate 48 0) 2 0%float = Some (fb', sf') /\
    length fb' = 48%nat /\
    (forall k : nat,
       (forall i, 0 <= i < 8 -> k <> Z.to_nat (3 * 8 + i)) -> fb' !! k = replicate 48 0 !! k).
Proof.
  destruct (render_scanline pow_integral scene_spheres scene_lights scene_cam 8 6
              flat_urand flat_irand true 8 6 3 (replicate 48 0) 2 0%float)
    as [[fb' sf']|] eqn:Hrun; [|vm_compute in Hrun; discriminate].
  exists fb', sf'. split; [reflexivity|].
  assert (1 <= 2) as Hs by lia.
  destruct (render_scanline_pixels _ _ _ _ _ _ _ _ _ _ _ _ _ _ _ _ _ Hs Hrun)
    as (Hlen & _ & Hframe & _).
  split; [exact Hlen | exact Hframe].
Defined.
(** ** The channels that reach the packing stage *)

Module SignFacts.

(** The sign bit is clear (or the value is a NaN). *)
Definition SFplus (x : spec_float) : Prop :=
  match x with
  | S754_zero true | S754_infinity true | S754_finite true _ _ => False
  | _ => True
  end.

Lemma SFplus_nonneg x : SFplus x -> DoubleFacts.SFnonneg x.
Proof. destruct x as [[]|[]| |[] m e]; simpl; auto. Qed.

Lemma binary_round_aux_plus m e l : SFplus (binary_round_aux prec emax false m e l).
Proof.
  destruct (DoubleFacts.binary_round_aux_sign false m e l) as [H|[H|[H|(m' & e' & H)]]];
    rewrite H; exact I.
Qed.

(** [(double)i] of an [int] that is not negative has a clear sign bit. *)
Lemma of_int_plus i : 0 <= i -> SFplus (Prim2SF (Double.of_int i)).
Proof.
  intros Hi. unfold Double.of_int.
  destruct (Z.ltb_spec i 0) as [H|_]; [lia|].
  rewrite FloatAxioms.of_uint63_spec.
  pose proof (Uint63.to_Z_bounded (Uint63.of_Z i)) as Hb.
  destruct (Uint63.to_Z (Uint63.of_Z i)) as [|p|p]; [exact I | | lia].
  unfold binary_normalize, binary_round.
  destruct (shl_align _ _ _) as [mz ez]. apply binary_round_aux_plus.
Qed.

Lemma SFdiv_plus x y : SFplus x -> SFplus y -> SFplus (SF64div x y).
Proof.
  destruct x as [[]|[]| |[] mx ex], y as [[]|[]| |[] my ey]; simpl; try tauto.
  intros _ _. unfold SF64div, SFdiv.
  destruct (SFdiv_core_binary _ _ _ _ _ _) as [[mz ez] lz]. apply binary_round_aux_plus.
Qed.

(** [rcp_samples] is not negative when [samples] is not. *)
Lemma rcp_nonneg samples : 0 <= samples -> Double.nonneg (1.0 / Double.of_int samples).
Proof.
  intros Hs. apply DoubleFacts.nonneg_SF. rewrite FloatAxioms.div_spec.
  apply SFplus_nonneg, SFdiv_plus; [exact I | apply of_int_plus, Hs].
Qed.

(** Zero times anything is a zero or a NaN. *)
Lemma zero_mul_nonneg x : Double.nonneg (0 * x).
Proof.
  apply DoubleFacts.nonneg_SF. rewrite FloatAxioms.mul_spec.
  change (Prim2SF 0) with (S754_zero false).
  destruct (Prim2SF x) as [[]|[]| |[] m e]; exact I.
Qed.

Lemma MIN_one_nonneg a : Double.nonneg a -> Double.nonneg (Double.MIN a 1.0).
Proof.
  intros Ha. unfold Double.MIN. destruct (a <? 1.0)%float; [exact Ha | reflexivity].
Qed.

End SignFacts.

Section ChannelFacts.

Variable pow : double -> double -> double.
Variable obj_list : list sphere.t.
Variable lights : list vec3.t.

Hypothesis pow_nonneg : forall x y,
  Double.nonneg x -> (0.0 <? y)%float = true -> Double.nonneg (pow x y).

Hypothesis colours_nonneg :
  Forall (fun s => vec3_nonneg s.(sphere.mat).(material.col)) obj_list.

Variable cam : camera.t.
Variable xres yres : Z.
Variable urand : list vec3.t.
Variable irand : list Z.

Local Abbreviation add_sample := (add_sample pow obj_list lights cam xres yres urand irand).
Local Abbreviation pixel_colour :=
  (pixel_colour pow obj_list lights cam xres yres urand irand).

(** The sums [r], [g], [b] of the sample loop are never negative. *)
Lemma sample_loop_nonneg i sl n : forall s acc sf rgb sf',
  vec3_nonneg acc ->
  for_loop n s (add_sample i sl) acc sf = Some (rgb, sf') -> vec3_nonneg rgb.
Proof.
  induction n as [|n IH]; intros s acc sf rgb sf' Hacc.
  { simpl. intros [= <- _]. exact Hacc. }
  cbn [for_loop]. rewrite bind_run.
  destruct (add_sample i sl s acc sf) as [[acc' sf1]|] eqn:Hadd; [|discriminate].
  apply IH. unfold add_sample in Hadd. rewrite bind_run in Hadd.
  destruct (get_primary_ray _ _ _ _ _ _ _ _ _) as [[r sf2]|]; [|discriminate].
  injection Hadd as <- _.
  destruct Hacc as (Ax & Ay & Az).
  destruct (trace_nonneg pow obj_list lights pow_nonneg colours_nonneg r 0) as (Tx & Ty & Tz).
  repeat split; simpl; apply DoubleFacts.add_nonneg; assumption.
Qed.

(** The channels [r], [g], [b] after the scaling by [rcp_samples]. *)
Lemma pixel_colour_nonneg i sl samples sf rgb sf' :
  pixel_colour i sl samples sf = Some (rgb, sf') -> vec3_nonneg rgb.
Proof.
  unfold pixel_colour. rewrite bind_run.
  destruct (for_loop (Z.to_nat samples) 0 _ _ sf) as [[tot sf1]|] eqn:Hloop; [|discriminate].
  intros [= <- _].
  destruct (Z.le_gt_cases samples 0) as [Hs|Hs].
  - replace (Z.to_nat samples) with 0%nat in Hloop by lia.
    injection Hloop as <- _.
    repeat split; apply SignFacts.zero_mul_nonneg.
  - apply sample_loop_nonneg in Hloop; [|repeat split].
    destruct Hloop as (Tx & Ty & Tz).
    pose proof (SignFacts.rcp_nonneg samples ltac:(lia)) as Hr.
    repeat split; simpl; apply DoubleFacts.mul_nonneg; assumption.
Qed.

End ChannelFacts.

(** C10, as amended: if the colour components of every sphere are not
    negative, and [pow] is not negative on a base that is not negative and a
    positive exponent, then for every ray, surface point and depth no
    component of the colour returned by [trace], or by [shade] for a sphere
    of the scene, is negative: [c < 0] is false for each.  The invariant
    reaches the packing stage: for every pixel and every number of samples
    the channels [r], [g], [b] scaled by [rcp_samples] are not negative,
    and neither are the values [MIN(c, 1.0) * 255.0] that are converted to
    [uint32_t].  (A component can be a NaN.) *)
Theorem trace_never_negative pow obj_list lights :
  (forall x y, Double.nonneg x -> (0.0 <? y)%float = true -> Double.nonneg (pow x y)) ->
  Forall (fun s => vec3_nonneg s.(sphere.mat).(material.col)) obj_list ->
  (forall r depth, vec3_nonneg (trace pow obj_list lights r depth)) /\
  (forall obj sp depth, In obj obj_list ->
     vec3_nonneg (shade pow obj_list lights obj sp depth)) /\
  (forall cam xres yres urand irand i sl samples sf rgb sf',
     pixel_colour pow obj_list lights cam xres yres urand irand i sl samples sf
       = Some (rgb, sf') ->
     vec3_nonneg rgb /\
     Double.nonneg (Double.MIN rgb.(vec3.x) 1.0 * 255.0) /\
     Double.nonneg (Double.MIN rgb.(vec3.y) 1.0 * 255.0) /\
     Double.nonneg (Double.MIN rgb.(vec3.z) 1.0 * 255.0)).
Proof.
  intros Hpow Hcol. split; [|split].
  - intros r depth. apply trace_nonneg; assumption.
  - intros obj sp depth Hin. apply shade_nonneg; assumption.
  - intros cam xres yres urand irand i sl samples sf rgb sf' Hrun.
    pose proof (pixel_colour_nonneg pow obj_list lights Hpow Hcol _ _ _ _ _ _ _ _ _ _ _ Hrun)
      as Hrgb.
    split; [exact Hrgb|]. destruct Hrgb as (Hx & Hy & Hz).
    repeat split;
      (apply DoubleFacts.mul_nonneg; [apply SignFacts.MIN_one_nonneg; assumption
                                     | reflexivity]).
Qed.

Lemma pow_nat_nonneg x n : Double.nonneg x -> Double.nonneg (pow_nat x n).
Proof.
  intros Hx. induction n as [|n IH]; simpl; [reflexivity|].
  apply DoubleFacts.mul_nonneg; assumption.
Qed.

Lemma pow_integral_nonneg x y : Double.nonneg x -> Double.nonneg (pow_integral x y).
Proof.
  intros Hx. unfold pow_integral.
  destruct (Double.truncate y); [apply pow_nat_nonneg, Hx | reflexivity].
Qed.

(** The amended C10 at the built-in scene: the colour traced along the
    centre ray, and the channels of pixel (4, 3) of an 8 by 6 image sampled
    twice. *)
Lemma trace_never_negative_witness :
  vec3_nonneg (trace pow_integral scene_spheres scene_lights centre_ray 0) /\
  exists rgb sf',
    pixel_colour pow_integral scene_spheres scene_lights scene_cam 8 6
      flat_urand flat_irand 4 3 2 0%float = Some (rgb, sf') /\
    vec3_nonneg rgb /\
    Double.nonneg (Double.MIN rgb.(vec3.x) 1.0 * 255.0).
Proof.
  assert (forall x y, Double.nonneg x -> (0.0 <? y)%float = true ->
            Double.nonneg (pow_integral x y)) as Hpow
    by (intros x y Hx _; apply pow_integral_nonneg, Hx).
  assert (Forall (fun s => vec3_nonneg s.(sphere.mat).(material.col)) scene_spheres)
    as Hcol
    by (repeat (apply List.Forall_cons; [repeat split|]); apply List.Forall_nil).
  destruct (trace_never_negative pow_integral scene_spheres scene_lights Hpow Hcol)
    as (Htrace & _ & Hpix).
  split; [apply Htrace|].
  destruct (pixel_colour pow_integral scene_spheres scene_lights scene_cam 8 6
              flat_urand flat_irand 4 3 2 0%float)
    as [[rgb sf']|] eqn:Hrun; [|vm_compute in Hrun; discriminate].
  exists rgb, sf'. split; [reflexivity|].
  destruct (Hpix _ _ _ _ _ _ _ _ _ _ _ Hrun) as (Hrgb & Hx & _).
  split; [exact Hrgb | exact Hx].
Defined.

(** ** The work partition *)

Lemma fill_threads_length n : forall sl q threads,
  fill_threads n sl q = Some threads -> length threads = n.
Proof.
  induction n as [|n IH]; intros sl q threads; simpl.
  - intros [= <-]. reflexivity.
  - destruct (Double.to_int sl); [|discriminate]. simpl.
    destruct (Double.to_int (sl + q)); [|discriminate]. simpl.
    destruct (fill_threads n (sl + q) q) as [rest|] eqn:E; [|discriminate].
    simpl. intros [= <-]. simpl. f_equal. eapply IH, E.
Qed.

(** Worker [i] starts at the truncated sum of [i] additions and ends at the
    truncated sum of [i + 1] additions. *)
Lemma fill_threads_lookup n : forall sl q threads i td,
  fill_threads n sl q = Some threads -> threads !! i = Some td ->
  Double.to_int (N.iter (N.of_nat i) (fun sl => (sl + q)%float) sl)
    = Some td.(thread_data.sl_start) /\
  Double.to_int (N.iter (N.succ (N.of_nat i)) (fun sl => (sl + q)%float) sl)
    = Some (td.(thread_data.sl_start) + td.(thread_data.sl_count)).
Proof.
  induction n as [|n IH]; intros sl q threads i td; simpl.
  - intros [= <-]. discriminate.
  - destruct (Double.to_int sl) as [s|] eqn:Hs; [|discriminate]. simpl.
    destruct (Double.to_int (sl + q)) as [e|] eqn:He; [|discriminate]. simpl.
    destruct (fill_threads n (sl + q) q) as [rest|] eqn:E; [|discriminate].
    simpl. intros [= <-]. destruct i as [|i].
    + intros [= <-]. simpl. split; [exact Hs|]. rewrite He. f_equal. lia.
    + intros Hi. change ((thread_data.mk s (e - s) :: rest) !! S i) with (rest !! i) in Hi.
      destruct (IH _ _ _ _ _ E Hi) as [H1 H2].
      rewrite Nat2N.inj_succ, (N.iter_succ_r (N.of_nat i)), (N.iter_succ_r (N.succ (N.of_nat i))). auto.
Qed.

Lemma to_int_zero : Double.to_int 0.0 = Some 0.
Proof. reflexivity. Qed.

Lemma fill_threads_chained n : forall sl q threads s,
  fill_threads n sl q = Some threads -> Double.to_int sl = Some s ->
  exists e,
    Double.to_int (N.iter (N.of_nat n) (fun sl => (sl + q)%float) sl) = Some e /\
    chained s threads e.
Proof.
  induction n as [|n IH]; intros sl q threads s; simpl fill_threads.
  - intros [= <-] Hs. exists s. split; [exact Hs | reflexivity].
  - intros H Hs. rewrite Hs in H. simpl in H.
    destruct (Double.to_int (sl + q)) as [e1|] eqn:He; [|discriminate]. simpl in H.
    destruct (fill_threads n (sl + q) q) as [rest|] eqn:E; [|discriminate].
    simpl in H. injection H as <-.
    destruct (IH _ _ _ _ E He) as (e & Hiter & Hch).
    exists e. rewrite Nat2N.inj_succ, N.iter_succ_r. split; [exact Hiter|].
    simpl. split; [reflexivity|]. replace (s + (e1 - s)) with e1 by lia. exact Hch.
Qed.

(** The fix-up keeps every range but the last, which it ends at [yres]. *)
Lemma fix_last_chained yres : forall threads threads' a b,
  fix_last yres threads = Some threads' -> chained a threads b ->
  chained a threads' yres.
Proof.
  induction threads as [|td rest IH]; intros threads' a b; [discriminate|].
  destruct rest as [|td' rest].
  - simpl. intros [= <-] [Ha _]. simpl. split; [exact Ha|]. lia.
  - change (fix_last yres (td :: td' :: rest))
      with (rest' ← fix_last yres (td' :: rest); Some (td :: rest')).
    destruct (fix_last yres (td' :: rest)) as [rest'|] eqn:E; [|discriminate].
    simpl. intros [= <-] [Ha Hch]. split; [exact Ha|].
    eapply IH; [reflexivity | exact Hch].
Qed.

Lemma fix_last_length yres : forall threads threads',
  fix_last yres threads = Some threads' -> length threads' = length threads.
Proof.
  induction threads as [|td rest IH]; intros threads'; [discriminate|].
  destruct rest as [|td2 rest].
  - simpl. intros [= <-]. reflexivity.
  - change (fix_last yres (td :: td2 :: rest))
      with (rest' ← fix_last yres (td2 :: rest); Some (td :: rest')).
    destruct (fix_last yres (td2 :: rest)) as [rest'|] eqn:E; [|discriminate].
    intros H. cbn in H. injection H as <-.
    cbn [length]. f_equal. apply IH. reflexivity.
Qed.

Lemma fix_last_lookup yres : forall threads threads' i td',
  fix_last yres threads = Some threads' -> threads' !! i = Some td' ->
  exists td,
    threads !! i = Some td /\
    td'.(thread_data.sl_start) = td.(thread_data.sl_start) /\
    ((S i < length threads)%nat -> td'.(thread_data.sl_count) = td.(thread_data.sl_count)) /\
    (S i = length threads ->
       td'.(thread_data.sl_count) = yres - td.(thread_data.sl_start)).
Proof.
  induction threads as [|td rest IH]; intros threads' i td'; [discriminate|].
  destruct rest as [|td2 rest].
  - simpl. intros [= <-]. destruct i as [|i]; [|discriminate].
    intros [= <-]. exists td.
    split; [reflexivity|]. split; [reflexivity|].
    split; [simpl; lia | intros _; reflexivity].
  - change (fix_last yres (td :: td2 :: rest))
      with (rest' ← fix_last yres (td2 :: rest); Some (td :: rest')).
    destruct (fix_last yres (td2 :: rest)) as [rest'|] eqn:E; [|discriminate].
    intros H. cbn in H. injection H as <-. destruct i as [|i].
    + intros [= <-]. exists td.
      split; [reflexivity|]. split; [reflexivity|].
      split; [intros _; reflexivity | simpl; lia].
    + intros Hi. change ((td :: rest') !! S i) with (rest' !! i) in Hi.
      destruct (IH rest' i td' eq_refl Hi) as (td0 & Hl & Hs & Hc1 & Hc2).
      exists td0.
      change ((td :: td2 :: rest) !! S i) with ((td2 :: rest) !! i).
      split; [exact Hl|]. split; [exact Hs|]. split.
      * intros H. apply Hc1. simpl in *. lia.
      * intros H. apply Hc2. simpl in *. lia.
Qed.

(** Ranges that follow one another and have no negative size cover the
    interval from the first start to the last end, each row once. *)
Lemma chained_cover threads : forall a b,
  chained a threads b ->
  Forall (fun td => 0 <= td.(thread_data.sl_count)) threads ->
  a <= b /\
  (forall y, a <= y < b -> exists i td, threads !! i = Some td /\ renders td y) /\
  (forall i td y, threads !! i = Some td -> renders td y -> a <= y < b) /\
  (forall i j td td' y,
     threads !! i = Some td -> threads !! j = Some td' ->
     renders td y -> renders td' y -> i = j).
Proof.
  induction threads as [|td rest IH]; intros a b Hch Hnn.
  { simpl in Hch. subst b. split; [lia|]. split; [intros y Hy; lia|].
    split; [intros i td y Hi; discriminate | intros i j td td' y Hi; discriminate]. }
  destruct Hch as [Hstart Hch]. inversion Hnn as [|? ? Hc Hrest]; subst.
  destruct (IH _ _ Hch Hrest) as (Hle & Hcov & Hin & Huniq).
  split; [lia|]. split; [|split].
  - intros y Hy.
    destruct (Z.lt_ge_cases y (thread_data.sl_start td + thread_data.sl_count td)) as [Hlt|Hge].
    + exists 0%nat, td. split; [reflexivity | unfold renders; lia].
    + destruct (Hcov y) as (i & td' & Hi & Hr); [lia|].
      exists (S i), td'. split; [exact Hi | exact Hr].
  - intros [|i] td' y Hi Hr.
    + injection Hi as <-. unfold renders in Hr. lia.
    + change ((td :: rest) !! S i) with (rest !! i) in Hi.
      specialize (Hin i td' y Hi Hr). lia.
  - intros [|i] [|j] td1 td2 y Hi Hj Hr1 Hr2.
    + reflexivity.
    + injection Hi as <-. change ((td :: rest) !! S j) with (rest !! j) in Hj.
      specialize (Hin j td2 y Hj Hr2). unfold renders in Hr1. lia.
    + injection Hj as <-. change ((td :: rest) !! S i) with (rest !! i) in Hi.
      specialize (Hin i td1 y Hi Hr1). unfold renders in Hr2. lia.
    + f_equal. eapply Huniq; eassumption.
Qed.

Lemma cray_mt_threads_chained thread_num yres threads :
  cray_mt_threads thread_num yres = Some threads -> chained 0 threads yres.
Proof.
  unfold cray_mt_threads. intros H.
  destruct (fill_threads _ _ _) as [threads0|] eqn:E; [|discriminate].
  simpl in H.
  destruct (fill_threads_chained _ _ _ _ 0 E to_int_zero) as (e & _ & Hch).
  eapply fix_last_chained; eassumption.
Qed.

(** The last worker receives [yres - sl_start]. *)
Lemma cray_mt_threads_ranges_aux thread_num yres threads :
  cray_mt_threads thread_num yres = Some threads ->
  exists td,
    last threads = Some td /\
    td.(thread_data.sl_count) = yres - td.(thread_data.sl_start).
Proof.
  unfold cray_mt_threads. intros H.
  destruct (fill_threads _ _ _) as [threads0|] eqn:E; [|discriminate].
  simpl in H.
  destruct (last threads) as [td|] eqn:Hlast.
  - exists td. split; [reflexivity|].
    rewrite last_lookup in Hlast.
    destruct (fix_last_lookup _ _ _ _ _ H Hlast) as (td0 & _ & Hs & _ & Hc).
    rewrite Hc, Hs; [reflexivity|].
    rewrite <- (fix_last_length _ _ _ H).
    destruct threads; [discriminate | simpl; lia].
  - apply last_None in Hlast. subst threads.
    destruct threads0; [discriminate | apply fix_last_length in H; discriminate].
Qed.

(** C8, counterexample: with 5 scanlines and 3 workers the running sums
    are 1.66..., 3.33... and 5, so the table is (0, 1), (1, 2), (3, 2): the
    second worker, which is not the last, has 2 scanlines, while
    [floor (5 / 3)] is 1. *)
Lemma second_worker_of_three_has_two :
  cray_mt_threads 3 5
    = Some [thread_data.mk 0 1; thread_data.mk 1 2; thread_data.mk 3 2] /\
  5 / 3 = 1.
Proof. split; reflexivity. Qed.

(** The ranges of a defined thread table. *)
Lemma cray_mt_threads_ranges_facts thread_num yres threads :
  cray_mt_threads thread_num yres = Some threads ->
  length threads = Z.to_nat (clamp_threads thread_num yres) /\
  chained 0 threads yres /\
  forall i td, threads !! i = Some td ->
    Double.to_int (running_sum (scanlines_per_thread thread_num yres) (N.of_nat i))
      = Some td.(thread_data.sl_start) /\
    ((S i < length threads)%nat ->
       Double.to_int (running_sum (scanlines_per_thread thread_num yres)
                        (N.succ (N.of_nat i)))
         = Some (td.(thread_data.sl_start) + td.(thread_data.sl_count))) /\
    (S i = length threads ->
       td.(thread_data.sl_count) = yres - td.(thread_data.sl_start)).
Proof.
  intros H. split; [|split].
  - unfold cray_mt_threads in H. fold (clamp_threads thread_num yres) in H.
    destruct (fill_threads _ _ _) as [threads0|] eqn:E; [|discriminate].
    simpl in H. rewrite (fix_last_length _ _ _ H).
    apply (fill_threads_length _ _ _ _ E).
  - apply (cray_mt_threads_chained _ _ _ H).
  - intros i td Hi. unfold cray_mt_threads in H.
    fold (clamp_threads thread_num yres) in H.
    fold (scanlines_per_thread thread_num yres) in H.
    destruct (fill_threads _ _ _) as [threads0|] eqn:E; [|discriminate].
    simpl in H.
    destruct (fix_last_lookup _ _ _ _ _ H Hi) as (td0 & Hi0 & Hs & Hc1 & Hc2).
    destruct (fill_threads_lookup _ _ _ _ _ _ E Hi0) as [H1 H2].
    rewrite (fix_last_length _ _ _ H). unfold running_sum.
    rewrite Hs. split; [exact H1|]. split.
    + intros Hlt. rewrite (Hc1 Hlt). exact H2.
    + intros Heq. rewrite (Hc2 Heq). reflexivity.
Qed.

(** C8, as amended: when the thread table is defined, it has one entry per
    worker (the worker count clamped to the height); worker [i] starts at
    the running sum of [i] additions of [height / workers], truncated, and,
    unless it is the last, ends where worker [i + 1] starts, at the
    truncated sum of [i + 1] additions, so that its size is the difference
    of two truncated sums (not always [floor (height / workers)]); the
    first worker starts at 0, each range starts where the one before it
    ends, and the last worker receives [height - last_worker_start]. *)
Theorem cray_mt_threads_ranges thread_num yres threads :
  cray_mt_threads thread_num yres = Some threads ->
  length threads = Z.to_nat (clamp_threads thread_num yres) /\
  chained 0 threads yres /\
  forall i td, threads !! i = Some td ->
    Double.to_int (running_sum (scanlines_per_thread thread_num yres) (N.of_nat i))
      = Some td.(thread_data.sl_start) /\
    ((S i < length threads)%nat ->
       Double.to_int (running_sum (scanlines_per_thread thread_num yres)
                        (N.succ (N.of_nat i)))
         = Some (td.(thread_data.sl_start) + td.(thread_data.sl_count))) /\
    (S i = length threads ->
       td.(thread_data.sl_count) = yres - td.(thread_data.sl_start)).
Proof. exact (cray_mt_threads_ranges_facts thread_num yres threads). Qed.

(** The amended C8 at 6 scanlines and 4 workers. *)
Lemma cray_mt_threads_ranges_witness :
  exists threads,
    cray_mt_threads 4 6 = Some threads /\
    length threads = 4%nat /\ chained 0 threads 6.
Proof.
  exists [thread_data.mk 0 1; thread_data.mk 1 2; thread_data.mk 3 1; thread_data.mk 4 2].
  assert (cray_mt_threads 4 6
          = Some [thread_data.mk 0 1; thread_data.mk 1 2; thread_data.mk 3 1;
                  thread_data.mk 4 2]) as H by (vm_compute; reflexivity).
  split; [exact H|].
  destruct (cray_mt_threads_ranges 4 6 _ H) as (Hlen & Hch & _).
  split; [exact Hlen | exact Hch].
Defined.

(** X1: The workers share out the image.  When the thread table is defined
    and no worker's count is negative, every scanline of [0, height) is
    rendered by exactly one worker, no worker renders a row outside
    [0, height), and the last worker's range ends at [height]. *)
Theorem partition_covers_image thread_num yres threads :
  cray_mt_threads thread_num yres = Some threads ->
  Forall (fun td => 0 <= td.(thread_data.sl_count)) threads ->
  (forall y, 0 <= y < yres ->
     exists i td,
       threads !! i = Some td /\ renders td y /\
       forall j td', threads !! j = Some td' -> renders td' y -> j = i) /\
  (forall i td y, threads !! i = Some td -> renders td y -> 0 <= y < yres) /\
  (exists td,
     last threads = Some td /\
     td.(thread_data.sl_start) + td.(thread_data.sl_count) = yres).
Proof.
  intros H Hnn. pose proof (cray_mt_threads_chained _ _ _ H) as Hch.
  destruct (chained_cover _ _ _ Hch Hnn) as (_ & Hcov & Hin & Huniq).
  split; [|split].
  - intros y Hy. destruct (Hcov y Hy) as (i & td & Hi & Hr).
    exists i, td. split; [exact Hi|]. split; [exact Hr|].
    intros j td' Hj Hr'. eapply Huniq; eassumption.
  - exact Hin.
  - destruct (cray_mt_threads_ranges_aux _ _ _ H) as (td & Hlast & Hc).
    exists td. split; [exact Hlast | lia].
Qed.

(** 600 scanlines and 8 workers: 75 rows each. *)
Lemma partition_covers_image_witness :
  let threads := map (fun i => thread_data.mk (75 * i) 75) (seqZ 0 8) in
  cray_mt_threads 8 600 = Some threads /\
  forall y, 0 <= y < 600 ->
    exists i td,
      threads !! i = Some td /\ renders td y /\
      forall j td', threads !! j = Some td' -> renders td' y -> j = i.
Proof.
  intros threads.
  assert (cray_mt_threads 8 600 = Some threads) as H by (vm_compute; reflexivity).
  split; [exact H|].
  refine (proj1 (partition_covers_image 8 600 threads H _)).
  subst threads. simpl.
  repeat (apply List.Forall_cons; [simpl; lia|]). apply List.Forall_nil.
Defined.
(** ** Several workers *)

Lemma for_loop_shift {A} (body : Z -> A -> Render A) (s : Z) n : forall i a sf,
  for_loop n i (fun i a => body (i + s) a) a sf = for_loop n (i + s) body a sf.
Proof.
  induction n as [|n IH]; intros i a sf; [reflexivity|].
  cbn [for_loop]. rewrite !bind_run.
  destruct (body (i + s) a sf) as [[a' sf']|]; [|reflexivity].
  rewrite IH. f_equal. lia.
Qed.

Lemma for_loop_add {A} (body : Z -> A -> Render A) n m : forall i a sf,
  for_loop (n + m) i body a sf
  = (a' ← for_loop n i body a; for_loop m (i + Z.of_nat n) body a') sf.
Proof.
  induction n as [|n IH]; intros i a sf.
  - simpl. rewrite Z.add_0_r. reflexivity.
  - cbn [for_loop Nat.add]. rewrite !bind_run.
    destruct (body i a sf) as [[a' sf']|]; [|reflexivity].
    rewrite IH, bind_run.
    destruct (for_loop n (i + 1) body a' sf') as [[a'' sf'']|]; [|reflexivity].
    f_equal. lia.
Qed.

Section WorkerFacts.

Variable pow : double -> double -> double.
Variable obj_list : list sphere.t.
Variable lights : list vec3.t.
Variable cam : camera.t.
Variable xres yres : Z.
Variable urand : list vec3.t.
Variable irand : list Z.
Variable LITTLE_ENDIAN : bool.
Variable rays_per_pixel : Z.

Local Abbreviation render_scanline :=
  (render_scanline pow obj_list lights cam xres yres urand irand LITTLE_ENDIAN).
Local Abbreviation thread_func :=
  (thread_func pow obj_list lights cam xres yres urand irand LITTLE_ENDIAN rays_per_pixel).
Local Abbreviation run_threads :=
  (run_threads pow obj_list lights cam xres yres urand irand LITTLE_ENDIAN rays_per_pixel).

(** A worker renders its scanlines in increasing order. *)
Lemma thread_func_rows td pixels sf :
  thread_func td pixels sf
  = for_loop (Z.to_nat td.(thread_data.sl_count)) td.(thread_data.sl_start)
      (fun j fb => render_scanline xres yres j fb rays_per_pixel) pixels sf.
Proof.
  unfold thread_func.
  rewrite (for_loop_shift (fun j fb => render_scanline xres yres j fb rays_per_pixel)).
  reflexivity.
Qed.

(** Workers whose ranges follow one another, taken in table order, render
    the rows from the first start to the last end in increasing order. *)
Lemma run_threads_chained threads : forall a b pixels sf,
  chained a threads b ->
  Forall (fun td => 0 <= td.(thread_data.sl_count)) threads ->
  run_threads threads pixels sf
  = for_loop (Z.to_nat (b - a)) a
      (fun j fb => render_scanline xres yres j fb rays_per_pixel) pixels sf.
Proof.
  induction threads as [|td rest IH]; intros a b pixels sf Hch Hnn.
  - simpl in Hch. subst b. rewrite Z.sub_diag. reflexivity.
  - destruct Hch as [Hstart Hch]. inversion Hnn as [|? ? Hc Hrest]; subst.
    destruct (chained_cover _ _ _ Hch Hrest) as (Hle & _).
    cbn [run_threads].
    replace (Z.to_nat (b - thread_data.sl_start td))
      with (Z.to_nat (thread_data.sl_count td)
            + Z.to_nat (b - (thread_data.sl_start td + thread_data.sl_count td)))%nat by lia.
    rewrite for_loop_add, !bind_run, thread_func_rows.
    destruct (for_loop _ _ _ pixels sf) as [[pixels' sf']|]; [|reflexivity].
    rewrite (IH _ _ _ _ Hch Hrest). f_equal. lia.
Qed.

End WorkerFacts.

(** X2: However many workers there are: when the thread table is defined and
    no count in it is negative, the workers of [cray_mt], taken in table
    order, leave the buffer and [sf] exactly as the sequential [render] of
    [cray_f] does (or are undefined as it is). *)
Theorem workers_render_is_sequential pow obj_list lights cam urand irand
    LITTLE_ENDIAN thread_num xres yres rays_per_pixel pixels sf threads :
  cray_mt_threads thread_num yres = Some threads ->
  Forall (fun td => 0 <= td.(thread_data.sl_count)) threads ->
  cray_mt_render pow obj_list lights cam urand irand LITTLE_ENDIAN
    thread_num xres yres rays_per_pixel pixels sf
  = cray_f_render pow obj_list lights cam urand irand LITTLE_ENDIAN
      xres yres rays_per_pixel pixels sf.
Proof.
  intros Hthreads Hnn.
  pose proof (cray_mt_threads_chained _ _ _ Hthreads) as Hch.
  unfold cray_mt_render, cray_f_render.
  rewrite render_scanlines, bind_run, Hthreads. simpl.
  rewrite (run_threads_chained _ _ _ _ _ _ _ _ _ _ _ 0 yres _ _ Hch Hnn).
  rewrite Z.sub_0_r. reflexivity.
Qed.

(** Four workers on a frame of 8 by 6 pixels of the built-in scene. *)
Lemma workers_render_is_sequential_witness :
  cray_mt_render pow_integral scene_spheres scene_lights scene_cam flat_urand flat_irand
    true 4 8 6 2 (replicate 48 0) 0%float
  = cray_f_render pow_integral scene_spheres scene_lights scene_cam flat_urand flat_irand
      true 8 6 2 (replicate 48 0) 0%float.
Proof.
  assert (cray_mt_threads 4 6
          = Some [thread_data.mk 0 1; thread_data.mk 1 2; thread_data.mk 3 1;
                  thread_data.mk 4 2]) as H by (vm_compute; reflexivity).
  apply (workers_render_is_sequential _ _ _ _ _ _ _ _ _ _ _ _ _ _ H).
  repeat (apply List.Forall_cons; [simpl; lia|]). apply List.Forall_nil.
Defined.
(** ** The frame buffer *)

Section FrameFacts.

Variable pow : double -> double -> double.
Variable obj_list : list sphere.t.
Variable lights : list vec3.t.
Variable cam : camera.t.
Variable xres yres : Z.
Variable urand : list vec3.t.
Variable irand : list Z.
Variable LITTLE_ENDIAN : bool.

Local Abbreviation sample_colours := (sample_colours pow obj_list lights cam xres yres urand irand).
Local Abbreviation pixel :=
  (pixel pow obj_list lights cam xres yres urand irand LITTLE_ENDIAN).
Local Abbreviation render_scanline :=
  (render_scanline pow obj_list lights cam xres yres urand irand LITTLE_ENDIAN).

(** The slots a loop of stores at [base + i] touches, whatever is stored. *)
Lemma store_loop_frame (px : Z -> Render Z) (base : Z) n : forall i0 fb sf fb' sf',
  for_loop n i0 (fun i fb => v ← px i; lift (store fb (base + i) v)) fb sf = Some (fb', sf') ->
  length fb' = length fb /\
  (forall i, i0 <= i < i0 + Z.of_nat n -> 0 <= base + i < Z.of_nat (length fb)) /\
  (forall k : nat,
     (forall i, i0 <= i < i0 + Z.of_nat n -> k <> Z.to_nat (base + i)) ->
     fb' !! k = fb !! k).
Proof.
  induction n as [|n IH]; intros i0 fb sf fb' sf'.
  { simpl. intros [= <- <-].
    split; [reflexivity|]. split; [intros i Hi; lia | intros k _; reflexivity]. }
  cbn [for_loop]. rewrite !bind_run.
  destruct (px i0 sf) as [[v sf1]|]; [|discriminate].
  unfold lift at 1.
  destruct (store fb (base + i0) v) as [fb1|] eqn:Hst; [|discriminate].
  apply store_Some in Hst as (Hidx & Hlt & ->).
  intros Hloop. apply IH in Hloop as (Hlen & Hin & Hframe).
  rewrite length_insert in Hlen, Hin.
  split; [exact Hlen|]. split.
  - intros i Hi. destruct (Z.eq_dec i i0) as [->|Hne]; [lia | apply Hin; lia].
  - intros k Hk. rewrite Hframe; [|intros i Hi; apply Hk; lia].
    apply list_lookup_insert_ne. intros <-. apply (Hk i0); [lia|reflexivity].
Qed.

(** The slots [n] scanlines from row [j0] on touch. *)
Lemma rows_frame (samples : Z) n : forall j0 fb sf fb' sf',
  0 <= xres ->
  for_loop n j0 (fun j fb => render_scanline xres yres j fb samples) fb sf = Some (fb', sf') ->
  length fb' = length fb /\
  (0 < xres -> (0 < n)%nat ->
     0 <= j0 * xres /\ (j0 + Z.of_nat n) * xres <= Z.of_nat (length fb)) /\
  (forall k : nat,
     Z.of_nat k < j0 * xres \/ (j0 + Z.of_nat n) * xres <= Z.of_nat k ->
     fb' !! k = fb !! k).
Proof.
  induction n as [|n IH]; intros j0 fb sf fb' sf' Hx.
  { simpl. intros [= <- <-].
    split; [reflexivity|]. split; [intros; lia | intros k _; reflexivity]. }
  cbn [for_loop]. rewrite !bind_run.
  destruct (render_scanline xres yres j0 fb samples sf) as [[fb1 sf1]|] eqn:Hrow;
    [|discriminate].
  unfold render_scanline in Hrow.
  apply (store_loop_frame (fun i => pixel i j0 samples) (j0 * xres)) in Hrow
    as (Hlen1 & Hin1 & Hframe1).
  intros Hloop. apply IH in Hloop as (Hlen & Hin & Hframe); [|assumption].
  rewrite Hlen1 in Hlen, Hin.
  split; [exact Hlen|]. split.
  - intros Hx0 _. pose proof (Hin1 0 ltac:(lia)) as H0. split; [lia|].
    destruct n as [|n'].
    + specialize (Hin1 (xres - 1)). lia.
    + specialize (Hin Hx0). lia.
  - intros k Hk. rewrite Hframe by nia. apply Hframe1.
    intros i Hi. specialize (Hin1 i Hi). nia.
Qed.

Lemma pixel_sf_init i sl samples sf :
  1 <= samples -> pixel i sl samples (sf_init xres sf) = pixel i sl samples sf.
Proof.
  intros Hs. rewrite !(pixel_run pow obj_list lights cam xres yres urand irand LITTLE_ENDIAN)
    by assumption.
  rewrite sf_init_idem. reflexivity.
Qed.

Lemma pixel_sf_out i sl samples sf v sf1 :
  1 <= samples -> pixel i sl samples sf = Some (v, sf1) -> sf1 = sf_init xres sf.
Proof.
  intros Hs. rewrite (pixel_run pow obj_list lights cam xres yres urand irand LITTLE_ENDIAN)
    by assumption.
  destruct (sample_colours _ _ _ _ _) as [cols|]; [|discriminate]. simpl.
  destruct (pack_pixel _ _); [|discriminate]. simpl. intros [= _ <-]. reflexivity.
Qed.

Lemma scanline_loop_sf (xsz sl samples : Z) n : forall i0 fb sf fb' sf',
  1 <= samples ->
  for_loop n i0 (fun i fb => v ← pixel i sl samples; lift (store fb (sl * xsz + i) v)) fb sf
    = Some (fb', sf') ->
  sf_init xres sf' = sf_init xres sf.
Proof.
  induction n as [|n IH]; intros i0 fb sf fb' sf' Hs.
  { simpl. intros [= <- <-]. reflexivity. }
  cbn [for_loop]. rewrite !bind_run.
  destruct (pixel i0 sl samples sf) as [[v sf1]|] eqn:Hp; [|discriminate].
  apply pixel_sf_out in Hp; [|assumption]. subst sf1.
  unfold lift at 1. destruct (store fb (sl * xsz + i0) v) as [fb1|]; [|discriminate].
  intros Hloop. apply IH in Hloop; [|assumption].
  rewrite sf_init_idem in Hloop. exact Hloop.
Qed.

(** What [n] scanlines from row [j0] on leave in their slots. *)
Lemma rows_pixels (samples : Z) n : forall j0 fb sf fb' sf',
  1 <= samples -> 0 <= xres ->
  for_loop n j0 (fun j fb => render_scanline xres yres j fb samples) fb sf = Some (fb', sf') ->
  sf_init xres sf' = sf_init xres sf /\
  (forall i j, j0 <= j < j0 + Z.of_nat n -> 0 <= i < xres ->
     exists cols v,
       sample_colours (sf_init xres sf) i j (Z.to_nat samples) 0 = Some cols /\
       pack_pixel LITTLE_ENDIAN (average cols samples) = Some v /\
       0 <= j * xres + i /\
       fb' !! Z.to_nat (j * xres + i) = Some v).
Proof.
  induction n as [|n IH]; intros j0 fb sf fb' sf' Hs Hx.
  { simpl. intros [= <- <-]. split; [reflexivity | intros i j Hj; lia]. }
  cbn [for_loop]. rewrite !bind_run.
  destruct (render_scanline xres yres j0 fb samples sf) as [[fb1 sf1]|] eqn:Hrow;
    [|discriminate].
  unfold render_scanline in Hrow.
  pose proof (scanline_loop_sf _ _ _ _ _ _ _ _ _ Hs Hrow) as Hsf1.
  pose proof (store_loop_frame (fun i => pixel i j0 samples) (j0 * xres) _ _ _ _ _ _ Hrow)
    as (_ & Hin1 & _).
  apply (scanline_loop pow obj_list lights cam xres yres urand irand LITTLE_ENDIAN
           xres j0 samples) in Hrow as (Hlen1 & Hpix1 & _); [|assumption].
  intros Hloop.
  pose proof (rows_frame _ _ _ _ _ _ _ Hx Hloop) as (_ & _ & Hframe).
  apply IH in Hloop as (Hsf & Hpix); [|assumption..].
  rewrite Hsf1 in Hsf, Hpix.
  split; [exact Hsf|].
  intros i j Hj Hi. destruct (Z.eq_dec j j0) as [->|Hne].
  - destruct (Hpix1 i) as (cols & v & Hcols & Hv & Hfb); [lia|].
    specialize (Hin1 i ltac:(lia)).
    exists cols, v. repeat split; [assumption | assumption | lia |].
    rewrite Hframe by nia. exact Hfb.
  - apply Hpix; [lia | assumption].
Qed.

Lemma scanline_defined (xsz sl samples : Z) n : forall i0 fb sf,
  1 <= samples ->
  (forall i, i0 <= i < i0 + Z.of_nat n -> is_Some (pixel i sl samples (sf_init xres sf))) ->
  (forall i, i0 <= i < i0 + Z.of_nat n -> 0 <= sl * xsz + i < Z.of_nat (length fb)) ->
  is_Some (for_loop n i0
             (fun i fb => v ← pixel i sl samples; lift (store fb (sl * xsz + i) v)) fb sf).
Proof.
  induction n as [|n IH]; intros i0 fb sf Hs Hpix Hin.
  { simpl. eexists. reflexivity. }
  cbn [for_loop]. rewrite !bind_run.
  destruct (Hpix i0) as [[v sf1] Hp]; [lia|].
  rewrite pixel_sf_init in Hp by assumption. rewrite Hp.
  apply pixel_sf_out in Hp; [|assumption]. subst sf1.
  unfold lift at 1. unfold store at 1.
  specialize (Hin i0 ltac:(lia)) as Hin0.
  replace (0 <=? sl * xsz + i0) with true by (symmetry; apply Z.leb_le; lia).
  replace (sl * xsz + i0 <? Z.of_nat (length fb)) with true
    by (symmetry; apply Z.ltb_lt; lia).
  simpl. apply IH; [assumption | |].
  - intros i Hi. rewrite sf_init_idem. apply Hpix. lia.
  - intros i Hi. rewrite length_insert. apply Hin. lia.
Qed.

Lemma rows_defined (samples : Z) n : forall j0 fb sf,
  1 <= samples -> 0 <= xres -> 0 <= j0 ->
  (j0 + Z.of_nat n) * xres <= Z.of_nat (length fb) ->
  (forall i j, j0 <= j < j0 + Z.of_nat n -> 0 <= i < xres ->
     is_Some (pixel i j samples (sf_init xres sf))) ->
  is_Some (for_loop n j0 (fun j fb => render_scanline xres yres j fb samples) fb sf).
Proof.
  induction n as [|n IH]; intros j0 fb sf Hs Hx Hj Hlen Hpix.
  { simpl. eexists. reflexivity. }
  cbn [for_loop]. rewrite !bind_run.
  destruct (scanline_defined xres j0 samples (Z.to_nat xres) 0 fb sf Hs)
    as [[fb1 sf1] Hrow].
  { intros i Hi. apply Hpix; lia. }
  { intros i Hi. nia. }
  unfold render_scanline at 1. rewrite Hrow.
  pose proof (scanline_loop_sf _ _ _ _ _ _ _ _ _ Hs Hrow) as Hsf1.
  apply (store_loop_frame (fun i => pixel i j0 samples) (j0 * xres)) in Hrow
    as (Hlen1 & _ & _).
  apply IH; [assumption | assumption | lia | rewrite Hlen1; lia |].
  intros i j Hj' Hi. rewrite Hsf1. apply Hpix; lia.
Qed.

(** Two buffers of one length that agree below [base + i0] agree below
    the slot the loop has reached, and the loop is defined on both or on
    neither. *)
Lemma store_loop_sim (px : Z -> Render Z) (base : Z) n : forall i0 fb1 fb2 sf,
  length fb1 = length fb2 ->
  (forall k : nat, Z.of_nat k < base + i0 -> fb1 !! k = fb2 !! k) ->
  match for_loop n i0 (fun i fb => v ← px i; lift (store fb (base + i) v)) fb1 sf,
        for_loop n i0 (fun i fb => v ← px i; lift (store fb (base + i) v)) fb2 sf with
  | Some (fb1', sf1), Some (fb2', sf2) =>
      sf1 = sf2 /\ length fb1' = length fb2' /\
      (forall k : nat, Z.of_nat k < base + i0 + Z.of_nat n -> fb1' !! k = fb2' !! k)
  | None, None => True
  | _, _ => False
  end.
Proof.
  induction n as [|n IH]; intros i0 fb1 fb2 sf Hlen Hag.
  { simpl. split; [reflexivity|]. split; [assumption|].
    intros k Hk. apply Hag. lia. }
  cbn [for_loop]. rewrite !bind_run.
  destruct (px i0 sf) as [[v sf1]|]; [|exact I].
  assert (store fb2 (base + i0) v
          = if (0 <=? base + i0) && (base + i0 <? Z.of_nat (length fb1))
            then Some (<[Z.to_nat (base + i0) := v]> fb2) else None) as ->
    by (unfold store; rewrite Hlen; reflexivity).
  change (store fb1 (base + i0) v)
    with (if (0 <=? base + i0) && (base + i0 <? Z.of_nat (length fb1))
          then Some (<[Z.to_nat (base + i0) := v]> fb1) else None).
  destruct ((0 <=? base + i0) && (base + i0 <? Z.of_nat (length fb1))) eqn:E;
    [|exact I].
  change (lift (Some ?l) sf1) with (Some (l, sf1)). cbv beta iota.
  apply andb_true_iff in E as [E1 E2]. apply Z.leb_le in E1. apply Z.ltb_lt in E2.
  simpl.
  assert (forall k : nat, Z.of_nat k < base + (i0 + 1) ->
            <[Z.to_nat (base + i0) := v]> fb1 !! k = <[Z.to_nat (base + i0) := v]> fb2 !! k)
    as Hag1.
  { intros k Hk. destruct (Nat.eq_dec k (Z.to_nat (base + i0))) as [->|Hne].
    - rewrite !list_lookup_insert_eq; [reflexivity | lia | lia].
    - rewrite !list_lookup_insert_ne by (intros ?; apply Hne; congruence).
      apply Hag. lia. }
  assert (length (<[Z.to_nat (base + i0) := v]> fb1)
          = length (<[Z.to_nat (base + i0) := v]> fb2)) as Hlen1
    by (rewrite !length_insert; assumption).
  specialize (IH (i0 + 1) _ _ sf1 Hlen1 Hag1).
  destruct (for_loop n (i0 + 1) _ (<[Z.to_nat (base + i0) := v]> fb1) sf1) as [[fb1' s1]|];
    destruct (for_loop n (i0 + 1) _ (<[Z.to_nat (base + i0) := v]> fb2) sf1) as [[fb2' s2]|];
    try exact IH.
  destruct IH as (Hsf & Hlen' & Hag').
  split; [assumption|]. split; [assumption|].
  intros k Hk. apply Hag'. lia.
Qed.

Lemma rows_sim (samples : Z) n : forall j0 fb1 fb2 sf,
  0 <= xres ->
  length fb1 = length fb2 ->
  (forall k : nat, Z.of_nat k < j0 * xres -> fb1 !! k = fb2 !! k) ->
  match for_loop n j0 (fun j fb => render_scanline xres yres j fb samples) fb1 sf,
        for_loop n j0 (fun j fb => render_scanline xres yres j fb samples) fb2 sf with
  | Some (fb1', sf1), Some (fb2', sf2) =>
      sf1 = sf2 /\ length fb1' = length fb2' /\
      (forall k : nat, Z.of_nat k < (j0 + Z.of_nat n) * xres -> fb1' !! k = fb2' !! k)
  | None, None => True
  | _, _ => False
  end.
Proof.
  induction n as [|n IH]; intros j0 fb1 fb2 sf Hx Hlen Hag.
  { simpl. split; [reflexivity|]. split; [assumption|].
    intros k Hk. apply Hag. lia. }
  cbn [for_loop]. rewrite !bind_run.
  assert (forall k : nat, Z.of_nat k < j0 * xres + 0 -> fb1 !! k = fb2 !! k) as Hag0
    by (intros k Hk; apply Hag; lia).
  assert (match render_scanline xres yres j0 fb1 samples sf,
                render_scanline xres yres j0 fb2 samples sf with
          | Some (fb1', sf1), Some (fb2', sf2) =>
              sf1 = sf2 /\ length fb1' = length fb2' /\
              (forall k : nat, Z.of_nat k < j0 * xres + 0 + Z.of_nat (Z.to_nat xres) ->
                 fb1' !! k = fb2' !! k)
          | None, None => True
          | _, _ => False
          end) as Hrow
    by exact (store_loop_sim (fun i => pixel i j0 samples) (j0 * xres) (Z.to_nat xres)
                0 fb1 fb2 sf Hlen Hag0).
  revert Hrow.
  destruct (render_scanline xres yres j0 fb1 samples sf) as [[fb1' s1]|];
    destruct (render_scanline xres yres j0 fb2 samples sf) as [[fb2' s2]|];
    intros Hrow; cbv beta iota; try contradiction; try exact I.
  destruct Hrow as (<- & Hlen' & Hag').
  assert (forall k : nat, Z.of_nat k < (j0 + 1) * xres -> fb1' !! k = fb2' !! k) as Hag1
    by (intros k Hk; apply Hag'; lia).
  specialize (IH (j0 + 1) fb1' fb2' s1 Hx Hlen' Hag1). revert IH.
  destruct (for_loop n (j0 + 1) _ fb1' s1) as [[fb1'' s1']|];
    destruct (for_loop n (j0 + 1) _ fb2' s1) as [[fb2'' s2']|];
    intros IH; try exact IH.
  destruct IH as (Hsf & Hlen'' & Hag'').
  split; [assumption|]. split; [assumption|].
  intros k Hk. apply Hag''. lia.
Qed.

End FrameFacts.

(** X3: A worker changes only the slots of its own scanlines.  When
    [thread_func] is defined it leaves the length of the buffer as it was,
    every slot outside the rows [sl_start .. sl_start + sl_count - 1] holds
    what it held, and these rows lie inside the buffer: no store is out of
    bounds. *)
Theorem thread_func_frame pow obj_list lights cam xres yres urand irand LITTLE_ENDIAN
    rays_per_pixel td pixels sf pixels' sf' :
  0 <= xres ->
  thread_func pow obj_list lights cam xres yres urand irand LITTLE_ENDIAN
    rays_per_pixel td pixels sf = Some (pixels', sf') ->
  length pixels' = length pixels /\
  (0 < xres -> 0 < td.(thread_data.sl_count) ->
     0 <= td.(thread_data.sl_start) * xres /\
     (td.(thread_data.sl_start) + td.(thread_data.sl_count)) * xres
       <= Z.of_nat (length pixels)) /\
  (forall k : nat,
     Z.of_nat k < td.(thread_data.sl_start) * xres \/
     (td.(thread_data.sl_start) + td.(thread_data.sl_count)) * xres <= Z.of_nat k ->
     pixels' !! k = pixels !! k).
Proof.
  intros Hx Hrun. rewrite thread_func_rows in Hrun.
  apply rows_frame in Hrun as (Hlen & Hin & Hframe); [|assumption].
  split; [exact Hlen|]. split.
  - intros Hx0 Hc. rewrite Z2Nat.id in Hin by lia. apply Hin; lia.
  - intros k Hk. apply Hframe.
    destruct (Z.le_gt_cases 0 (thread_data.sl_count td)) as [Hc|Hc].
    + rewrite Z2Nat.id by assumption. exact Hk.
    + replace (Z.to_nat (thread_data.sl_count td)) with 0%nat by lia. lia.
Qed.

(** The worker of rows 2 and 3 of an 8 by 6 frame of the built-in scene. *)
Lemma thread_func_frame_witness :
  exists pixels' sf',
    thread_func pow_integral scene_spheres scene_lights scene_cam 8 6
      flat_urand flat_irand true 2 (thread_data.mk 2 2) (replicate 48 7) 0%float
    = Some (pixels', sf') /\
    length pixels' = 48%nat /\
    (forall k : nat, Z.of_nat k < 16 \/ 32 <= Z.of_nat k ->
       pixels' !! k = replicate 48 7 !! k).
Proof.
  destruct (thread_func pow_integral scene_spheres scene_lights scene_cam 8 6
              flat_urand flat_irand true 2 (thread_data.mk 2 2) (replicate 48 7) 0%float)
    as [[pixels' sf']|] eqn:Hrun; [|vm_compute in Hrun; discriminate].
  exists pixels', sf'. split; [reflexivity|].
  assert (0 <= 8) as Hx by lia.
  destruct (thread_func_frame _ _ _ _ _ _ _ _ _ _ _ _ _ _ _ Hx Hrun) as (Hlen & _ & Hframe).
  split; [exact Hlen | exact Hframe].
Defined.

(** X4: On a buffer that has room for [xres * yres] pixels, [render] is
    defined exactly when the value of every pixel is: no store of the
    renderer falls outside the buffer. *)
Theorem render_defined_iff pow obj_list lights cam urand irand LITTLE_ENDIAN
    xres yres rays_per_pixel pixels sf :
  1 <= rays_per_pixel -> 0 <= xres -> 0 <= yres ->
  xres * yres <= Z.of_nat (length pixels) ->
  is_Some (cray_f_render pow obj_list lights cam urand irand LITTLE_ENDIAN
             xres yres rays_per_pixel pixels sf)
  <-> (forall i j, 0 <= i < xres -> 0 <= j < yres ->
         is_Some (pixel pow obj_list lights cam xres yres urand irand LITTLE_ENDIAN
                    i j rays_per_pixel (sf_init xres sf))).
Proof.
  intros Hs Hx Hy Hlen. unfold cray_f_render. rewrite render_scanlines. split.
  - intros [[fb' sf'] Hrun] i j Hi Hj.
    apply rows_pixels in Hrun as (_ & Hpix); [|assumption..].
    destruct (Hpix i j) as (cols & v & Hcols & Hv & _); [lia | assumption |].
    rewrite pixel_run by assumption. rewrite sf_init_idem, Hcols. simpl.
    rewrite Hv. simpl. eexists. reflexivity.
  - intros Hpix. apply rows_defined; [assumption | assumption | lia | |].
    + rewrite Z2Nat.id by assumption. lia.
    + intros i j Hj Hi. apply Hpix; lia.
Qed.

(** An 8 by 6 frame of the built-in scene, two samples per pixel. *)
Lemma render_defined_iff_witness :
  is_Some (cray_f_render pow_integral scene_spheres scene_lights scene_cam
             flat_urand flat_irand true 8 6 2 (replicate 48 0) 0%float)
  <-> (forall i j, 0 <= i < 8 -> 0 <= j < 6 ->
         is_Some (pixel pow_integral scene_spheres scene_lights scene_cam 8 6
                    flat_urand flat_irand true i j 2 (sf_init 8 0%float))).
Proof.
  apply (render_defined_iff pow_integral scene_spheres scene_lights scene_cam
           flat_urand flat_irand true 8 6 2 (replicate 48 0) 0%float);
    [lia | lia | lia | simpl; lia].
Defined.

(** X5: What [render] leaves in a buffer of [xres * yres] pixels does not
    depend on what the buffer held before: the renderer reads no pixel of
    it, and writes every one. *)
Theorem render_ignores_buffer pow obj_list lights cam urand irand LITTLE_ENDIAN
    xres yres rays_per_pixel pixels1 pixels2 sf :
  0 <= xres -> 0 <= yres ->
  Z.of_nat (length pixels1) = xres * yres ->
  Z.of_nat (length pixels2) = xres * yres ->
  cray_f_render pow obj_list lights cam urand irand LITTLE_ENDIAN
    xres yres rays_per_pixel pixels1 sf
  = cray_f_render pow obj_list lights cam urand irand LITTLE_ENDIAN
      xres yres rays_per_pixel pixels2 sf.
Proof.
  intros Hx Hy Hl1 Hl2. unfold cray_f_render. rewrite !render_scanlines.
  assert (length pixels1 = length pixels2) as Hlen by lia.
  assert (forall k : nat, Z.of_nat k < 0 * xres -> pixels1 !! k = pixels2 !! k) as Hag
    by (intros k Hk; lia).
  pose proof (rows_sim pow obj_list lights cam xres yres urand irand LITTLE_ENDIAN
                rays_per_pixel (Z.to_nat yres) 0 pixels1 pixels2 sf Hx Hlen Hag) as Hsim.
  pose proof (rows_frame pow obj_list lights cam xres yres urand irand LITTLE_ENDIAN
                rays_per_pixel (Z.to_nat yres) 0 pixels1 sf) as Hf1.
  pose proof (rows_frame pow obj_list lights cam xres yres urand irand LITTLE_ENDIAN
                rays_per_pixel (Z.to_nat yres) 0 pixels2 sf) as Hf2.
  revert Hsim Hf1 Hf2.
  destruct (for_loop (Z.to_nat yres) 0 _ pixels1 sf) as [[fb1 s1]|];
    destruct (for_loop (Z.to_nat yres) 0 _ pixels2 sf) as [[fb2 s2]|];
    intros Hsim Hf1 Hf2; try contradiction; [|reflexivity].
  destruct Hsim as (<- & Hlen' & Hag').
  destruct (Hf1 _ _ Hx eq_refl) as (Hlen1 & _).
  f_equal. f_equal. apply list_eq. intros k.
  destruct (Z.lt_ge_cases (Z.of_nat k) (xres * yres)) as [Hk|Hk].
  - apply Hag'. lia.
  - rewrite !lookup_ge_None_2 by lia. reflexivity.
Qed.

(** Two buffers of 48 pixels with different contents. *)
Lemma render_ignores_buffer_witness :
  cray_f_render pow_integral scene_spheres scene_lights scene_cam flat_urand flat_irand
    true 8 6 2 (replicate 48 0) 0%float
  = cray_f_render pow_integral scene_spheres scene_lights scene_cam flat_urand flat_irand
      true 8 6 2 (replicate 48 4294967295) 0%float.
Proof.
  apply render_ignores_buffer; [lia | lia | reflexivity | reflexivity].
Defined.
(** ** The image written *)

Lemma testbit_255 n : Z.testbit 255 n = (0 <=? n) && (n <? 8).
Proof.
  destruct (Z.leb_spec 0 n) as [Hn|Hn].
  - change 255 with (Z.ones 8). rewrite Z.testbit_ones_nonneg by lia. reflexivity.
  - apply Z.testbit_neg_r. assumption.
Qed.

Lemma land_255_bounds x : 0 <= Z.land x 255 <= 255.
Proof.
  replace (Z.land x 255) with (x mod 2 ^ 8)
    by (symmetry; apply (Z.land_ones x 8); lia).
  pose proof (Z.mod_pos_bound x (2 ^ 8) ltac:(lia)) as H.
  change (2 ^ 8) with 256 in *. lia.
Qed.

Ltac byte_bits :=
  apply Z.bits_inj'; intros n Hn;
  rewrite ?Z.land_spec, ?Z.shiftr_spec, ?Z.lor_spec, ?Z.shiftl_spec, ?Z.land_spec,
    ?testbit_255 by lia;
  repeat match goal with
         | |- context [?a <=? ?b] => destruct (Z.leb_spec a b); try lia
         | |- context [?a <? ?b] => destruct (Z.ltb_spec a b); try lia
         end;
  rewrite ?andb_false_r, ?orb_false_r, ?andb_true_r; cbn [orb andb]; try reflexivity;
  f_equal; lia.

(** The bytes written for a packed pixel are its three channels. *)
Lemma put_pixel_packed LITTLE_ENDIAN r g b :
  put_pixel LITTLE_ENDIAN
    (Z.lor (Z.lor (Z.shiftl (Z.land r 255) (RSHIFT LITTLE_ENDIAN))
                  (Z.shiftl (Z.land g 255) GSHIFT))
           (Z.shiftl (Z.land b 255) (BSHIFT LITTLE_ENDIAN)))
  = [Z.land r 255; Z.land g 255; Z.land b 255].
Proof.
  unfold put_pixel, GSHIFT.
  destruct LITTLE_ENDIAN; unfold RSHIFT, BSHIFT;
    (f_equal; [|f_equal; [|f_equal]]); byte_bits.
Qed.

Lemma put_pixels_S LITTLE_ENDIAN n i pixels p rest :
  pixels !! Z.to_nat i = Some p ->
  put_pixels LITTLE_ENDIAN n (i + 1) pixels = Some rest ->
  put_pixels LITTLE_ENDIAN (S n) i pixels = Some (put_pixel LITTLE_ENDIAN p ++ rest).
Proof. intros H1 H2. cbn [put_pixels]. rewrite H1. simpl. rewrite H2. reflexivity. Qed.

(** The output loop writes three bytes for each of the [n] pixels from
    [i] on, when these are in the buffer. *)
Lemma put_pixels_spec LITTLE_ENDIAN n : forall i pixels,
  0 <= i ->
  (forall k, i <= k < i + Z.of_nat n -> is_Some (pixels !! Z.to_nat k)) ->
  exists bytes,
    put_pixels LITTLE_ENDIAN n i pixels = Some bytes /\
    length bytes = (3 * n)%nat /\
    (forall k p, i <= k < i + Z.of_nat n -> pixels !! Z.to_nat k = Some p ->
       forall c : nat, (c < 3)%nat ->
         bytes !! (3 * Z.to_nat (k - i) + c)%nat = put_pixel LITTLE_ENDIAN p !! c).
Proof.
  induction n as [|n IH]; intros i pixels Hi Hin.
  { exists []. split; [reflexivity|]. split; [reflexivity|]. intros k p Hk. lia. }
  destruct (Hin i) as [p0 Hp0]; [lia|].
  destruct (IH (i + 1) pixels) as (rest & Hrest & Hlen & Hbytes); [lia | |].
  { intros k Hk. apply Hin. lia. }
  exists (put_pixel LITTLE_ENDIAN p0 ++ rest).
  split; [apply put_pixels_S; assumption|]. split.
  { rewrite length_app, Hlen. unfold put_pixel. simpl length. lia. }
  intros k p Hk Hp c Hc. destruct (Z.eq_dec k i) as [->|Hne].
  - rewrite Hp0 in Hp. injection Hp as <-. rewrite Z.sub_diag.
    rewrite lookup_app_l by (unfold put_pixel; simpl length; lia).
    reflexivity.
  - rewrite lookup_app_r by (unfold put_pixel; simpl length; lia).
    replace (3 * Z.to_nat (k - i) + c - length (put_pixel LITTLE_ENDIAN p0))%nat
      with (3 * Z.to_nat (k - (i + 1)) + c)%nat
      by (unfold put_pixel; simpl length; lia).
    apply Hbytes; [lia | assumption | assumption].
Qed.

(** X6: Written as a PPM pixel, a packed colour gives back its three
    channels: the bytes [put_pixel] writes for the value [pack_pixel] made
    are the red, green and blue channels, in this order, whichever the byte
    order of the machine, and each is a byte. *)
Theorem put_pixel_pack_pixel LITTLE_ENDIAN rgb v :
  pack_pixel LITTLE_ENDIAN rgb = Some v ->
  exists r g b,
    pack_channel rgb.(vec3.x) = Some r /\
    pack_channel rgb.(vec3.y) = Some g /\
    pack_channel rgb.(vec3.z) = Some b /\
    put_pixel LITTLE_ENDIAN v = [r; g; b] /\
    0 <= r <= 255 /\ 0 <= g <= 255 /\ 0 <= b <= 255.
Proof.
  intros Hv. apply pack_pixel_Some in Hv as (r & g & b & Hr & Hg & Hb & ->).
  exists (Z.land r 255), (Z.land g 255), (Z.land b 255).
  unfold pack_channel. rewrite Hr, Hg, Hb. simpl.
  pose proof (land_255_bounds r). pose proof (land_255_bounds g).
  pose proof (land_255_bounds b).
  repeat split; try reflexivity; try apply put_pixel_packed; lia.
Qed.

(** The colour (0.5, 2.0, 0): channels 127, 255 (capped) and 0. *)
Lemma put_pixel_pack_pixel_witness :
  exists r g b,
    pack_channel 0.5%float = Some r /\
    pack_channel 2.0%float = Some g /\
    pack_channel 0.0%float = Some b /\
    put_pixel true 8388352 = [r; g; b] /\
    0 <= r <= 255 /\ 0 <= g <= 255 /\ 0 <= b <= 255.
Proof.
  apply (put_pixel_pack_pixel true (vec3.mk 0.5 2.0 0.0) 8388352).
  vm_compute. reflexivity.
Defined.

(** X7: The image: when [render] is defined on [xres * yres] pixels, each
    sampled [rays_per_pixel >= 1] times, the output loop is defined on the
    buffer it leaves and writes [3 * xres * yres] bytes; the three bytes of
    the pixel in column [i] of row [j] stand at offset [3 * (j * xres + i)]
    and are the red, green and blue channels of the average of the colours
    traced for that pixel. *)
Theorem rendered_image pow obj_list lights cam urand irand LITTLE_ENDIAN
    xres yres rays_per_pixel pixels sf pixels' sf' :
  1 <= rays_per_pixel -> 0 <= xres -> 0 <= yres ->
  cray_f_render pow obj_list lights cam urand irand LITTLE_ENDIAN
    xres yres rays_per_pixel pixels sf = Some (pixels', sf') ->
  exists bytes,
    image_data LITTLE_ENDIAN xres yres pixels' = Some bytes /\
    Z.of_nat (length bytes) = 3 * (xres * yres) /\
    (forall i j, 0 <= i < xres -> 0 <= j < yres ->
       exists cols r g b,
         sample_colours pow obj_list lights cam xres yres urand irand
           (sf_init xres sf) i j (Z.to_nat rays_per_pixel) 0 = Some cols /\
         pack_channel (average cols rays_per_pixel).(vec3.x) = Some r /\
         pack_channel (average cols rays_per_pixel).(vec3.y) = Some g /\
         pack_channel (average cols rays_per_pixel).(vec3.z) = Some b /\
         bytes !! (3 * Z.to_nat (j * xres + i))%nat = Some r /\
         bytes !! (3 * Z.to_nat (j * xres + i) + 1)%nat = Some g /\
         bytes !! (3 * Z.to_nat (j * xres + i) + 2)%nat = Some b).
Proof.
  intros Hs Hx Hy Hrun. unfold cray_f_render in Hrun. rewrite render_scanlines in Hrun.
  apply rows_pixels in Hrun as (_ & Hpix); [|assumption..].
  rewrite Z2Nat.id in Hpix by assumption.
  destruct (put_pixels_spec LITTLE_ENDIAN (Z.to_nat (xres * yres)) 0 pixels')
    as (bytes & Hbytes & Hlen & Hat); [lia | |].
  { intros k Hk. rewrite Z2Nat.id in Hk by nia.
    assert (0 < xres) as Hx0 by nia.
    destruct (Hpix (k mod xres) (k / xres)) as (cols & v & _ & _ & _ & Hv).
    - pose proof (Z.div_pos k xres ltac:(lia) Hx0).
      assert (k / xres < yres) by (apply Z.div_lt_upper_bound; nia). lia.
    - apply Z.mod_pos_bound. assumption.
    - replace (k / xres * xres + k mod xres) with k in Hv
        by (rewrite (Z.div_mod k xres) at 1 by lia; lia).
      exists v. exact Hv. }
  exists bytes. split; [exact Hbytes|]. split; [rewrite Hlen; nia|].
  intros i j Hi Hj.
  destruct (Hpix i j) as (cols & v & Hcols & Hv & Hk & Hfb); [lia | assumption |].
  apply pack_pixel_Some in Hv as (r & g & b & Hr & Hg & Hb & ->).
  exists cols, (Z.land r 255), (Z.land g 255), (Z.land b 255).
  unfold pack_channel. rewrite Hr, Hg, Hb.
  split; [exact Hcols|]. split; [reflexivity|]. split; [reflexivity|].
  split; [reflexivity|].
  assert (0 <= j * xres + i < 0 + Z.of_nat (Z.to_nat (xres * yres))) as Hrange by nia.
  pose proof (Hat _ _ Hrange Hfb) as Hc.
  rewrite put_pixel_packed, Z.sub_0_r in Hc.
  split; [|split].
  - rewrite <- (Nat.add_0_r (3 * _)). apply (Hc 0%nat). lia.
  - apply (Hc 1%nat). lia.
  - apply (Hc 2%nat). lia.
Qed.

(** An 8 by 6 frame of the built-in scene, two samples per pixel: 144
    bytes. *)
Lemma rendered_image_witness :
  exists pixels' sf' bytes,
    cray_f_render pow_integral scene_spheres scene_lights scene_cam flat_urand flat_irand
      true 8 6 2 (replicate 48 0) 0%float = Some (pixels', sf') /\
    image_data true 8 6 pixels' = Some bytes /\
    Z.of_nat (length bytes) = 144.
Proof.
  destruct (cray_f_render pow_integral scene_spheres scene_lights scene_cam
              flat_urand flat_irand true 8 6 2 (replicate 48 0) 0%float)
    as [[pixels' sf']|] eqn:Hrun; [|vm_compute in Hrun; discriminate].
  assert (1 <= 2) as Hs by lia. assert (0 <= 8) as Hx by lia. assert (0 <= 6) as Hy by lia.
  destruct (rendered_image _ _ _ _ _ _ _ _ _ _ _ _ _ _ Hs Hx Hy Hrun)
    as (bytes & Hbytes & Hlen & _).
  exists pixels', sf', bytes. split; [reflexivity|]. split; [exact Hbytes | exact Hlen].
Defined.
(** ** Degenerate rays *)

Module DegenerateFacts.

(** Zero of either sign, or NaN. *)
Definition SFzn (x : spec_float) : Prop :=
  match x with
  | S754_zero _ | S754_nan => True
  | _ => False
  end.

Lemma zero_or_nan_SF d : Double.zero_or_nan d = true -> SFzn (Prim2SF d).
Proof.
  unfold Double.zero_or_nan. rewrite !FloatAxioms.ltb_spec.
  change (Prim2SF 0) with (S754_zero false).
  destruct (Prim2SF d) as [s| [|] | |[|] m e]; cbn; try discriminate; auto.
Qed.

Lemma SF_zero_or_nan d : SFzn (Prim2SF d) -> Double.zero_or_nan d = true.
Proof.
  unfold Double.zero_or_nan. rewrite !FloatAxioms.ltb_spec.
  change (Prim2SF 0) with (S754_zero false).
  destruct (Prim2SF d) as [s| [|] | |[|] m e]; cbn; try contradiction; auto.
Qed.

Lemma mul_zn_l x y : SFzn (Prim2SF x) -> SFzn (Prim2SF (x * y)).
Proof.
  rewrite FloatAxioms.mul_spec. unfold SF64mul.
  destruct (Prim2SF x) as [sx|sx| |sx mx ex]; try contradiction;
    destruct (Prim2SF y) as [sy|sy| |sy my ey]; intros _; exact I.
Qed.

Lemma mul_zn_r x y : SFzn (Prim2SF y) -> SFzn (Prim2SF (x * y)).
Proof.
  rewrite FloatAxioms.mul_spec. unfold SF64mul.
  destruct (Prim2SF y) as [sy|sy| |sy my ey]; try contradiction;
    destruct (Prim2SF x) as [sx|sx| |sx mx ex]; intros _; exact I.
Qed.

Lemma add_zn x y : SFzn (Prim2SF x) -> SFzn (Prim2SF y) -> SFzn (Prim2SF (x + y)).
Proof.
  rewrite FloatAxioms.add_spec. unfold SF64add.
  destruct (Prim2SF x) as [sx|sx| |sx mx ex]; try contradiction;
    destruct (Prim2SF y) as [sy|sy| |sy my ey]; try contradiction; intros _ _;
    try exact I.
  destruct sx, sy; exact I.
Qed.

Lemma sub_zn x y : SFzn (Prim2SF x) -> SFzn (Prim2SF y) -> SFzn (Prim2SF (x - y)).
Proof.
  rewrite FloatAxioms.sub_spec. unfold SF64sub.
  destruct (Prim2SF x) as [sx|sx| |sx mx ex]; try contradiction;
    destruct (Prim2SF y) as [sy|sy| |sy my ey]; try contradiction; intros _ _;
    try exact I.
  destruct sx, sy; exact I.
Qed.

Lemma opp_zn x : SFzn (Prim2SF x) -> SFzn (Prim2SF (- x)).
Proof.
  rewrite FloatAxioms.opp_spec.
  destruct (Prim2SF x) as [sx|sx| |sx mx ex]; try contradiction; intros _; exact I.
Qed.

Lemma sqrt_zn x : SFzn (Prim2SF x) -> SFzn (Prim2SF (PrimFloat.sqrt x)).
Proof.
  rewrite FloatAxioms.sqrt_spec. unfold SF64sqrt.
  destruct (Prim2SF x) as [sx|sx| |sx mx ex]; try contradiction; intros _; exact I.
Qed.

Lemma div_zn x y : SFzn (Prim2SF x) -> SFzn (Prim2SF y) -> Prim2SF (x / y) = S754_nan.
Proof.
  rewrite FloatAxioms.div_spec. unfold SF64div.
  destruct (Prim2SF x) as [sx|sx| |sx mx ex]; try contradiction;
    destruct (Prim2SF y) as [sy|sy| |sy my ey]; try contradiction; intros _ _;
    reflexivity.
Qed.

Lemma self_sub_zn x : SFzn (Prim2SF (x - x)).
Proof.
  rewrite FloatAxioms.sub_spec. unfold SF64sub.
  destruct (Prim2SF x) as [sx|sx| |sx mx ex].
  - destruct sx; exact I.
  - destruct sx; exact I.
  - exact I.
  - unfold SFsub. rewrite Z.sub_diag. exact I.
Qed.

Lemma ltb_nan_l x y : Prim2SF x = S754_nan -> (x <? y)%float = false.
Proof. intros H. rewrite FloatAxioms.ltb_spec, H. reflexivity. Qed.

Lemma ltb_nan_r x y : Prim2SF y = S754_nan -> (x <? y)%float = false.
Proof.
  intros H. rewrite FloatAxioms.ltb_spec, H.
  destruct (Prim2SF x) as [sx|[|]| |[|] mx ex]; reflexivity.
Qed.

Lemma not_nan_nan x : Prim2SF x = S754_nan -> Double.not_nan x = false.
Proof. intros H. unfold Double.not_nan. rewrite FloatAxioms.eqb_spec, H. reflexivity. Qed.

Lemma zn_not_below x : SFzn (Prim2SF x) -> (x <? 0)%float = false.
Proof.
  intros H. apply SF_zero_or_nan in H. unfold Double.zero_or_nan in H.
  destruct (x <? 0)%float; [discriminate | reflexivity].
Qed.

Ltac zn :=
  match goal with
  | H : SFzn (Prim2SF ?x) |- SFzn (Prim2SF ?x) => exact H
  | |- SFzn (Prim2SF (_ + _)) => apply add_zn; zn
  | |- SFzn (Prim2SF (_ - _)) => apply sub_zn; zn
  | |- SFzn (Prim2SF (- _)) => apply opp_zn; zn
  | |- SFzn (Prim2SF (PrimFloat.sqrt _)) => apply sqrt_zn; zn
  | |- SFzn (Prim2SF (_ * _)) => first [apply mul_zn_l; zn | apply mul_zn_r; zn]
  end.

(** Both roots of the quadratic of a ray without direction are NaN. *)
Lemma sphere_roots_degenerate sph r :
  Double.zero_or_nan r.(ray.dir).(vec3.x) = true ->
  Double.zero_or_nan r.(ray.dir).(vec3.y) = true ->
  Double.zero_or_nan r.(ray.dir).(vec3.z) = true ->
  exists t1 t2,
    sphere_roots sph r = Some (t1, t2) /\
    Prim2SF t1 = S754_nan /\ Prim2SF t2 = S754_nan.
Proof.
  intros Hx Hy Hz.
  apply zero_or_nan_SF in Hx, Hy, Hz.
  unfold sphere_roots, Double.SQ. cbv zeta.
  match goal with
  | |- context [if (?d <? 0)%float then _ else _] =>
      assert (SFzn (Prim2SF d)) as Hd by zn
  end.
  rewrite (zn_not_below _ Hd).
  eexists _, _. split; [reflexivity|].
  split; apply div_zn; zn.
Qed.

Lemma roots_rejected_nan t1 t2 :
  Prim2SF t1 = S754_nan -> Prim2SF t2 = S754_nan -> roots_rejected t1 t2 = false.
Proof.
  intros H1 H2. unfold roots_rejected.
  rewrite (ltb_nan_l t1), (ltb_nan_r _ t1) by assumption. reflexivity.
Qed.

Lemma ray_sphere_hit_degenerate sph r :
  Double.zero_or_nan r.(ray.dir).(vec3.x) = true ->
  Double.zero_or_nan r.(ray.dir).(vec3.y) = true ->
  Double.zero_or_nan r.(ray.dir).(vec3.z) = true ->
  ray_sphere_hit sph r = true.
Proof.
  intros Hx Hy Hz.
  destruct (sphere_roots_degenerate sph r Hx Hy Hz) as (t1 & t2 & Hroots & H1 & H2).
  unfold ray_sphere_hit. rewrite Hroots, (roots_rejected_nan t1 t2 H1 H2). reflexivity.
Qed.

(** Black stays black through a reflection that is positive and not
    infinite. *)
Lemma zero_plus_zero_times x :
  (0 <? x)%float = true -> (x =? infinity)%float = false -> (0 + 0 * x)%float = 0%float.
Proof.
  intros Hpos Hinf. apply Prim2SF_inj.
  rewrite FloatAxioms.ltb_spec in Hpos. rewrite FloatAxioms.eqb_spec in Hinf.
  rewrite FloatAxioms.add_spec, FloatAxioms.mul_spec.
  change (Prim2SF 0) with (S754_zero false) in *.
  change (Prim2SF infinity) with (S754_infinity false) in *.
  destruct (Prim2SF x) as [sx|[|]| |[|] mx ex]; try discriminate; reflexivity.
Qed.

End DegenerateFacts.

(** X8: A ray without direction hits every sphere.  When each component of
    the direction is zero or NaN, both roots of the intersection quadratic
    are NaN, no comparison rejects them, and [ray_sphere] reports a hit,
    whatever the sphere and the origin of the ray; the distance it stores is
    NaN. *)
Theorem ray_sphere_degenerate_ray sph r :
  Double.zero_or_nan r.(ray.dir).(vec3.x) = true ->
  Double.zero_or_nan r.(ray.dir).(vec3.y) = true ->
  Double.zero_or_nan r.(ray.dir).(vec3.z) = true ->
  ray_sphere_hit sph r = true /\
  exists sp, ray_sphere sph r = Some sp /\ Double.not_nan sp.(spoint.dist) = false.
Proof.
  intros Hx Hy Hz.
  destruct (DegenerateFacts.sphere_roots_degenerate sph r Hx Hy Hz)
    as (t1 & t2 & Hroots & H1 & H2).
  pose proof (DegenerateFacts.roots_rejected_nan t1 t2 H1 H2) as Hrej.
  unfold ray_sphere_hit, ray_sphere. rewrite Hroots, Hrej.
  split; [reflexivity|]. eexists. split; [reflexivity|].
  unfold surface_point, hit_distance. cbn [spoint.dist].
  rewrite (DegenerateFacts.ltb_nan_l t1), (DegenerateFacts.ltb_nan_l t2) by assumption.
  rewrite (DegenerateFacts.ltb_nan_l t1) by assumption.
  apply DegenerateFacts.not_nan_nan. assumption.
Qed.

(** A ray of direction (0, 0, 0) and a sphere it starts far away from. *)
Lemma ray_sphere_degenerate_ray_witness :
  ray_sphere_hit far_sphere (ray.mk (vec3.mk 0 0 0) (vec3.mk 0 0 0)) = true /\
  exists sp,
    ray_sphere far_sphere (ray.mk (vec3.mk 0 0 0) (vec3.mk 0 0 0)) = Some sp /\
    Double.not_nan sp.(spoint.dist) = false.
Proof.
  apply (ray_sphere_degenerate_ray far_sphere (ray.mk (vec3.mk 0 0 0) (vec3.mk 0 0 0)));
    reflexivity.
Defined.

(** X9: A light at the shaded point itself lights nothing.  The shadow ray
    to it has no direction, the first sphere of the scene is reported to
    block it, and the iteration of [shade] for this light leaves the colour
    as it was. *)
Theorem shade_light_at_surface_point pow s rest obj sp col light :
  light = sp.(spoint.pos) ->
  shade_light pow (s :: rest) obj sp col light = col.
Proof.
  intros ->. unfold shade_light. cbn [in_shadow].
  rewrite DegenerateFacts.ray_sphere_hit_degenerate; [reflexivity | ..];
    apply DegenerateFacts.SF_zero_or_nan, DegenerateFacts.self_sub_zn.
Qed.

(** A light at the point (1, 2, 3) of a surface. *)
Lemma shade_light_at_surface_point_witness :
  shade_light pow_integral [near_sphere] near_sphere
    (spoint.mk (vec3.mk 1 2 3) (vec3.mk 0 1 0) (vec3.mk 0 1 0) 1)
    (vec3.mk 0.25 0.5 0.75) (vec3.mk 1 2 3)
  = vec3.mk 0.25 0.5 0.75.
Proof.
  apply (shade_light_at_surface_point pow_integral near_sphere [] near_sphere
           (spoint.mk (vec3.mk 1 2 3) (vec3.mk 0 1 0) (vec3.mk 0 1 0) 1)).
  reflexivity.
Defined.

Section DarkFacts.

Variable pow : double -> double -> double.
Variable obj_list : list sphere.t.

Hypothesis refl_not_infinite :
  Forall (fun s => (s.(sphere.mat).(material.refl) =? infinity)%float = false) obj_list.

Lemma trace_fuel_dark fuel : forall r depth c,
  trace_fuel pow obj_list [] fuel r depth = Some c -> c = black.
Proof.
  induction fuel as [|fuel IH]; intros r depth c; simpl; [discriminate|].
  destruct (MAX_RAY_DEPTH <=? depth); [intros [= <-]; reflexivity|].
  pose proof (find_nearest_spec r obj_list) as Hinv.
  destruct (find_nearest obj_list r None) as [[obj sp]|];
    [|intros [= <-]; reflexivity].
  destruct Hinv as (Hin & _). simpl in Hin.
  rewrite Forall_forall in refl_not_infinite.
  pose proof (refl_not_infinite obj (proj2 (list_elem_of_In _ _) Hin)) as Hobj.
  unfold shade_with. simpl.
  destruct (0.0 <? _)%float eqn:E; [|intros [= <-]; reflexivity].
  destruct (trace_fuel pow obj_list [] fuel _ _) as [rcol|] eqn:Hr; [|discriminate].
  apply IH in Hr. subst rcol. intros [= <-]. unfold black. simpl.
  rewrite (DegenerateFacts.zero_plus_zero_times _ E Hobj). reflexivity.
Qed.

End DarkFacts.

(** X10: Without lights the image is black.  When the scene has no light and
    no sphere has the reflectivity [+infinity], [trace] returns (0, 0, 0)
    for every ray at every depth: the shader has no ambient term, and a
    reflection of black is black. *)
Theorem trace_without_lights pow obj_list r depth :
  Forall (fun s => (s.(sphere.mat).(material.refl) =? infinity)%float = false) obj_list ->
  trace pow obj_list [] r depth = black.
Proof.
  intros Hrefl.
  apply (trace_fuel_dark pow obj_list Hrefl (trace_fuel_for depth) r depth).
  apply trace_fuel_trace. unfold trace_fuel_for. lia.
Qed.

(** The spheres of the built-in scene with the lights taken away. *)
Lemma trace_without_lights_witness :
  trace pow_integral scene_spheres [] centre_ray 0 = black.
Proof.
  apply trace_without_lights.
  repeat (apply List.Forall_cons; [reflexivity|]). apply List.Forall_nil.
Defined.
(** ** The period of the jitter *)

Lemma land_MASK_period a k : Z.land (a + 1024 * k) MASK = Z.land a MASK.
Proof.
  change MASK with (Z.ones 10). rewrite !Z.land_ones by lia.
  change (2 ^ 10) with 1024. rewrite (Z.mul_comm 1024 k). apply Z.mod_add. lia.
Qed.

Lemma irand_index_period a s ka ks :
  irand_index (a + 1024 * ka) (s + 1024 * ks) = irand_index a s.
Proof.
  unfold irand_index.
  replace (a + 1024 * ka + (s + 1024 * ks)) with (a + s + 1024 * (ka + ks)) by lia.
  apply land_MASK_period.
Qed.

Lemma urand_index_period a b r ka kb :
  urand_index (a + 1024 * ka) (b + 1024 * kb) r = urand_index a b r.
Proof.
  unfold urand_index. rewrite !Z.shiftl_mul_pow2 by lia.
  replace (a + 1024 * ka + (b + 1024 * kb) * 2 ^ 2 + r)
    with (a + b * 2 ^ 2 + r + 1024 * (ka + 4 * kb)) by lia.
  apply land_MASK_period.
Qed.

Lemma jitter_shift urand irand x y s kx ky ks :
  jitter urand irand (x + 1024 * kx) (y + 1024 * ky) (s + 1024 * ks)
  = jitter urand irand x y s.
Proof.
  unfold jitter.
  rewrite !irand_index_period.
  destruct (irand !! Z.to_nat (irand_index x s)) as [rx|]; [|reflexivity]. simpl.
  rewrite urand_index_period.
  destruct (urand !! Z.to_nat (urand_index x y rx)) as [ux|]; [|reflexivity]. simpl.
  destruct (irand !! Z.to_nat (irand_index y s)) as [ry|]; [|reflexivity]. simpl.
  rewrite urand_index_period. reflexivity.
Qed.

(** X11: The jitter pattern repeats over the image: columns and rows that
    differ by multiples of [NRAN] = 1024 get the same offsets for every
    sample, whatever the tables hold. *)
Theorem jitter_period urand irand x y s kx ky :
  jitter urand irand (x + 1024 * kx) (y + 1024 * ky) s = jitter urand irand x y s.
Proof.
  rewrite <- (jitter_shift urand irand x y s kx ky 0).
  f_equal. lia.
Qed.

(** X12: Primary rays repeat after 1024 samples: from the second sample on,
    sample [s + 1024] of a pixel is cast along the very ray of sample [s],
    so that more than 1025 rays per pixel trace no new ray. *)
Theorem primary_ray_period cam xres yres urand irand x y s sf :
  1 <= s ->
  get_primary_ray cam xres yres urand irand x y (s + 1024) sf
  = get_primary_ray cam xres yres urand irand x y s sf.
Proof.
  intros Hs. unfold get_primary_ray. rewrite !bind_run.
  unfold get_sample_pos, sample_pos.
  replace (s + 1024 =? 0) with false by (symmetry; apply Z.eqb_neq; lia).
  replace (s =? 0) with false by (symmetry; apply Z.eqb_neq; lia).
  pose proof (jitter_shift urand irand x y s 0 0 1) as H.
  rewrite !Z.mul_0_r, !Z.add_0_r, Z.mul_1_r in H. rewrite H. reflexivity.
Qed.

(** Samples 3 and 1027 of pixel (4, 3) of an 8 by 6 image. *)
Lemma primary_ray_period_witness :
  get_primary_ray scene_cam 8 6 flat_urand flat_irand 4 3 (3 + 1024) 0%float
  = get_primary_ray scene_cam 8 6 flat_urand flat_irand 4 3 3 0%float.
Proof. apply primary_ray_period. lia. Defined.

(** ** The jitter scale *)

Section ScaleFacts.

Variable pow : double -> double -> double.
Variable obj_list : list sphere.t.
Variable lights : list vec3.t.
Variable cam : camera.t.
Variable xres yres : Z.
Variable urand : list vec3.t.
Variable irand : list Z.
Variable LITTLE_ENDIAN : bool.

Local Abbreviation pixel :=
  (pixel pow obj_list lights cam xres yres urand irand LITTLE_ENDIAN).
Local Abbreviation render_scanline :=
  (render_scanline pow obj_list lights cam xres yres urand irand LITTLE_ENDIAN).

(** What [sf] holds after [n] passes of a loop whose every pass leaves it
    initialised. *)
Definition sf_after (n : nat) (sf : double) : double :=
  match n with
  | O => sf
  | S _ => sf_init xres sf
  end.

Lemma sf_after_init n sf : sf_after n (sf_init xres sf) = sf_init xres sf.
Proof. destruct n; [reflexivity | apply sf_init_idem]. Qed.

Lemma scanline_loop_scale (xsz sl samples : Z) n : forall i0 fb sf fb' sf',
  1 <= samples ->
  for_loop n i0 (fun i fb => v ← pixel i sl samples; lift (store fb (sl * xsz + i) v)) fb sf
    = Some (fb', sf') ->
  sf' = sf_after n sf.
Proof.
  induction n as [|n IH]; intros i0 fb sf fb' sf' Hs.
  { simpl. intros [= <- <-]. reflexivity. }
  cbn [for_loop]. rewrite !bind_run.
  destruct (pixel i0 sl samples sf) as [[v sf1]|] eqn:Hp; [|discriminate].
  apply pixel_sf_out in Hp; [|assumption]. subst sf1.
  unfold lift at 1. destruct (store fb (sl * xsz + i0) v) as [fb1|]; [|discriminate].
  intros Hloop. apply IH in Hloop; [|assumption].
  rewrite sf_after_init in Hloop. exact Hloop.
Qed.

Lemma rows_scale (samples : Z) n : forall j0 fb sf fb' sf',
  1 <= samples -> 1 <= xres ->
  for_loop n j0 (fun j fb => render_scanline xres yres j fb samples) fb sf = Some (fb', sf') ->
  sf' = sf_after n sf.
Proof.
  induction n as [|n IH]; intros j0 fb sf fb' sf' Hs Hx.
  { simpl. intros [= <- <-]. reflexivity. }
  cbn [for_loop]. rewrite !bind_run.
  destruct (render_scanline xres yres j0 fb samples sf) as [[fb1 sf1]|] eqn:Hrow;
    [|discriminate].
  unfold render_scanline in Hrow.
  apply scanline_loop_scale in Hrow; [|assumption].
  destruct (Z.to_nat xres) as [|m] eqn:Em; [lia|]. simpl in Hrow. subst sf1.
  intros Hloop. apply IH in Hloop; [|assumption..].
  rewrite sf_after_init in Hloop. exact Hloop.
Qed.

End ScaleFacts.

(** X13: The jitter scale is set once.  [get_sample_pos] keeps it in the
    static [sf] and computes it only while [sf] is 0: a render of at least
    one pixel leaves in [sf] the value [1.5 / xres] of its own width when
    [sf] was 0, and the value [sf] had otherwise -- the scale of an earlier
    render, whatever the width now. *)
Theorem render_sets_scale_once pow obj_list lights cam urand irand LITTLE_ENDIAN
    xres yres rays_per_pixel pixels sf pixels' sf' :
  1 <= rays_per_pixel -> 1 <= xres -> 1 <= yres ->
  cray_f_render pow obj_list lights cam urand irand LITTLE_ENDIAN
    xres yres rays_per_pixel pixels sf = Some (pixels', sf') ->
  sf' = if (sf =? 0.0)%float then (1.5 / Double.of_int xres)%float else sf.
Proof.
  intros Hs Hx Hy Hrun. unfold cray_f_render in Hrun. rewrite render_scanlines in Hrun.
  apply rows_scale in Hrun; [|assumption..].
  destruct (Z.to_nat yres) as [|m] eqn:Em; [lia|]. exact Hrun.
Qed.

(** An 8 by 6 frame rendered when [sf] holds the scale 1.5 / 800 of an
    earlier frame of 800 columns. *)
Lemma render_sets_scale_once_witness :
  exists pixels' sf',
    cray_f_render pow_integral scene_spheres scene_lights scene_cam flat_urand flat_irand
      true 8 6 2 (replicate 48 0) 0.001875%float = Some (pixels', sf') /\
    sf' = 0.001875%float.
Proof.
  destruct (cray_f_render pow_integral scene_spheres scene_lights scene_cam
              flat_urand flat_irand true 8 6 2 (replicate 48 0) 0.001875%float)
    as [[pixels' sf']|] eqn:Hrun; [|vm_compute in Hrun; discriminate].
  exists pixels', sf'. split; [reflexivity|].
  assert (1 <= 2) as Hs by lia. assert (1 <= 8) as Hx by lia. assert (1 <= 6) as Hy by lia.
  exact (render_sets_scale_once _ _ _ _ _ _ _ _ _ _ _ _ _ _ Hs Hx Hy Hrun).
Defined.
(** ** Loading the scene *)

Lemma load_scene_run st :
  load_scene st
  = if Z.of_nat (length st.(scene.lights)) + 2 <=? MAX_LIGHTS
    then Some (scene.mk scene_spheres (st.(scene.lights) ++ scene_lights) scene_cam)
    else None.
Proof.
  destruct st as [objs lights cam]. unfold load_scene, MAX_LIGHTS. cbn.
  unfold MAX_LIGHTS.
  destruct (Z.ltb_spec (Z.of_nat (length lights)) 16) as [H1|H1]; cbn.
  - rewrite length_app. cbn [length]. unfold MAX_LIGHTS.
    destruct (Z.ltb_spec (Z.of_nat (length lights + 1)) 16) as [H2|H2]; cbn.
    + destruct (Z.leb_spec (Z.of_nat (length lights) + 2) 16); [|lia].
      rewrite <- app_assoc. reflexivity.
    + destruct (Z.leb_spec (Z.of_nat (length lights) + 2) 16); [lia|reflexivity].
  - destruct (Z.leb_spec (Z.of_nat (length lights) + 2) 16); [lia|reflexivity].
Qed.

(** The lights of [k] calls: the two lights of the scene, [k] times. *)
Fixpoint lights_of_calls (k : nat) : list vec3.t :=
  match k with
  | O => []
  | S k' => lights_of_calls k' ++ scene_lights
  end.

Lemma lights_of_calls_length k : length (lights_of_calls k) = (2 * k)%nat.
Proof.
  induction k as [|k IH]; [reflexivity|].
  simpl. rewrite length_app, IH. simpl. lia.
Qed.

Lemma load_scene_calls_S k st st' :
  load_scene_calls k st = Some st' -> load_scene_calls (S k) st = load_scene st'.
Proof. intros H. cbn [load_scene_calls]. rewrite H. reflexivity. Qed.

Lemma load_scene_calls_None k st :
  load_scene_calls k st = None -> load_scene_calls (S k) st = None.
Proof. intros H. cbn [load_scene_calls]. rewrite H. reflexivity. Qed.

Lemma load_scene_calls_run k : forall st,
  (1 <= k)%nat -> (Z.of_nat (length st.(scene.lights)) + 2 * Z.of_nat k <= MAX_LIGHTS) ->
  load_scene_calls k st
  = Some (scene.mk scene_spheres (st.(scene.lights) ++ lights_of_calls k) scene_cam).
Proof.
  induction k as [|k IH]; intros st Hk Hlen; [lia|].
  destruct k as [|k].
  - rewrite (load_scene_calls_S 0 st st eq_refl), load_scene_run.
    destruct (Z.leb_spec (Z.of_nat (length (scene.lights st)) + 2) MAX_LIGHTS); [|lia].
    reflexivity.
  - rewrite (load_scene_calls_S _ _ _ (IH st ltac:(lia) ltac:(lia))), load_scene_run.
    cbn [scene.lights].
    destruct (Z.leb_spec (Z.of_nat (length (scene.lights st ++ lights_of_calls (S k))) + 2)
                MAX_LIGHTS) as [_|H].
    + cbn [lights_of_calls]. rewrite <- !app_assoc. reflexivity.
    + rewrite length_app, lights_of_calls_length in H. lia.
Qed.

(** X14: Every call of [load_scene] adds the two lights of the scene to
    those of the calls before it: [lnum] is never reset.  While they fit
    into [lights], a call leaves the four spheres and the camera of the
    scene and the old lights followed by the two new ones; the second render
    of a process is lit by four lights. *)
Theorem load_scene_adds_lights st :
  Z.of_nat (length st.(scene.lights)) + 2 <= MAX_LIGHTS ->
  load_scene st
  = Some (scene.mk scene_spheres (st.(scene.lights) ++ scene_lights) scene_cam).
Proof.
  intros H. rewrite load_scene_run.
  destruct (Z.leb_spec (Z.of_nat (length (scene.lights st)) + 2) MAX_LIGHTS); [|lia].
  reflexivity.
Qed.

(** The second call in a process. *)
Lemma load_scene_adds_lights_witness :
  load_scene (scene.mk scene_spheres scene_lights scene_cam)
  = Some (scene.mk scene_spheres (scene_lights ++ scene_lights) scene_cam).
Proof.
  apply (load_scene_adds_lights (scene.mk scene_spheres scene_lights scene_cam)).
  vm_compute. discriminate.
Defined.

(** X15: The ninth call overflows [lights].  The first eight calls of
    [load_scene] in a process fill the [MAX_LIGHTS] = 16 entries of
    [lights]; from the ninth on the store [lights[lnum++] = pos] is outside
    the array. *)
Theorem load_scene_ninth_call k :
  load_scene_calls k scene_init
  = if (k <=? 8)%nat
    then Some (scene.mk (if (k =? 0)%nat then [] else scene_spheres)
                        (lights_of_calls k)
                        (if (k =? 0)%nat then scene_init.(scene.cam) else scene_cam))
    else None.
Proof.
  destruct (Nat.leb_spec k 8) as [Hk|Hk].
  - destruct k as [|k]; [reflexivity|].
    rewrite load_scene_calls_run; [reflexivity | lia | unfold MAX_LIGHTS; simpl; lia].
  - replace k with (S (k - 9) + 8)%nat by lia. generalize (k - 9)%nat. clear k Hk.
    intros n. induction n as [|n IH].
    + change (1 + 8)%nat with 9%nat.
      rewrite (load_scene_calls_S 8 scene_init _
                 (load_scene_calls_run 8 scene_init ltac:(lia)
                    ltac:(unfold MAX_LIGHTS; simpl; lia))).
      rewrite load_scene_run. reflexivity.
    + change (S (S n) + 8)%nat with (S (S n + 8)).
      apply load_scene_calls_None, IH.
Qed.
(** ** The camera *)

Lemma SFzn_zero : DegenerateFacts.SFzn (Prim2SF 0).
Proof. exact I. Qed.

(** Adding a zero changes no number. *)
Lemma zn_add_eq z p :
  DegenerateFacts.SFzn (Prim2SF z) ->
  Double.not_nan (z + p) = true -> (z + p =? p)%float = true.
Proof.
  unfold Double.not_nan. rewrite !FloatAxioms.eqb_spec, FloatAxioms.add_spec.
  unfold SF64add.
  destruct (Prim2SF z) as [sz|sz| |sz mz ez]; try contradiction; intros _;
    destruct (Prim2SF p) as [sp|sp| |sp mp ep]; intros H; try exact H.
  destruct sz, sp; reflexivity.
Qed.

(** X16: Every primary ray starts at the camera: each coordinate of its
    origin equals that of [cam.pos] (as [==] compares), or it is NaN, as
    it is when an entry of the camera's matrix is not finite. *)
Theorem primary_ray_origin cam xres yres urand irand x y s sf r sf' :
  get_primary_ray cam xres yres urand irand x y s sf = Some (r, sf') ->
  (Double.not_nan r.(ray.orig).(vec3.x) = true ->
   (r.(ray.orig).(vec3.x) =? cam.(camera.pos).(vec3.x))%float = true) /\
  (Double.not_nan r.(ray.orig).(vec3.y) = true ->
   (r.(ray.orig).(vec3.y) =? cam.(camera.pos).(vec3.y))%float = true) /\
  (Double.not_nan r.(ray.orig).(vec3.z) = true ->
   (r.(ray.orig).(vec3.z) =? cam.(camera.pos).(vec3.z))%float = true).
Proof.
  unfold get_primary_ray. rewrite bind_run.
  destruct (get_sample_pos xres yres urand irand x y s sf) as [[pt sf1]|]; [|discriminate].
  intros [= <- _]. unfold primary_ray_through. cbn [ray.orig vec3.x vec3.y vec3.z].
  repeat split; apply zn_add_eq;
    repeat apply DegenerateFacts.add_zn; apply DegenerateFacts.mul_zn_l, SFzn_zero.
Qed.

(** The ray through the centre of pixel (4, 3) of an 8 by 6 image of the
    built-in scene starts at (0, 6, -17). *)
Lemma primary_ray_origin_witness :
  exists r sf',
    get_primary_ray scene_cam 8 6 flat_urand flat_irand 4 3 0 0%float = Some (r, sf') /\
    (r.(ray.orig).(vec3.x) =? 0)%float = true /\
    (r.(ray.orig).(vec3.y) =? 6)%float = true /\
    (r.(ray.orig).(vec3.z) =? -17)%float = true.
Proof.
  destruct (get_primary_ray scene_cam 8 6 flat_urand flat_irand 4 3 0 0%float)
    as [[r sf']|] eqn:Hrun; [|vm_compute in Hrun; discriminate].
  exists r, sf'. split; [reflexivity|].
  destruct (primary_ray_origin _ _ _ _ _ _ _ _ _ _ _ Hrun) as (Hx & Hy & Hz).
  assert (r = primary_ray_through scene_cam
                (vec3.mk (Double.of_int 4 / Double.of_int 8 - 0.5)
                         (- (Double.of_int 3 / Double.of_int 6 - 0.65) / aspect) 0)%float)
    as Hr by (vm_compute in Hrun; injection Hrun as <- _; vm_compute; reflexivity).
  split; [|split]; [apply Hx | apply Hy | apply Hz]; rewrite Hr; vm_compute; reflexivity.
Defined.
(** ** No samples *)

Section NoSampleFacts.

Variable pow : double -> double -> double.
Variable obj_list : list sphere.t.
Variable lights : list vec3.t.
Variable cam : camera.t.
Variable xres yres : Z.
Variable urand : list vec3.t.
Variable irand : list Z.
Variable LITTLE_ENDIAN : bool.

Local Abbreviation pixel :=
  (pixel pow obj_list lights cam xres yres urand irand LITTLE_ENDIAN).
Local Abbreviation render_scanline :=
  (render_scanline pow obj_list lights cam xres yres urand irand LITTLE_ENDIAN).

(** With no sample the sum (0, 0, 0) is scaled by [1.0 / 0.0]: every
    channel is NaN, [MIN] takes it for 1.0, and the pixel is white. *)
Lemma pixel_no_sample i sl sf : pixel i sl 0 sf = Some (16777215, sf).
Proof.
  unfold pixel, pixel_colour. rewrite bind_run. cbn [Z.to_nat for_loop].
  destruct LITTLE_ENDIAN; vm_compute; reflexivity.
Qed.

(** A loop that stores the same value [v] and leaves the state alone. *)
Lemma store_loop_const (px : Z -> Render Z) (base v : Z) n :
  (forall i sf, px i sf = Some (v, sf)) ->
  forall i0 fb sf,
  (forall i, i0 <= i < i0 + Z.of_nat n -> 0 <= base + i < Z.of_nat (length fb)) ->
  exists fb',
    for_loop n i0 (fun i fb => v ← px i; lift (store fb (base + i) v)) fb sf
      = Some (fb', sf) /\
    length fb' = length fb /\
    (forall i, i0 <= i < i0 + Z.of_nat n -> fb' !! Z.to_nat (base + i) = Some v) /\
    (forall k : nat,
       (forall i, i0 <= i < i0 + Z.of_nat n -> k <> Z.to_nat (base + i)) ->
       fb' !! k = fb !! k).
Proof.
  intros Hpx. induction n as [|n IH]; intros i0 fb sf Hin.
  { exists fb. split; [reflexivity|]. split; [reflexivity|].
    split; [intros i Hi; lia | intros k _; reflexivity]. }
  pose proof (Hin i0 ltac:(lia)) as Hin0.
  destruct (IH (i0 + 1) (<[Z.to_nat (base + i0) := v]> fb) sf)
    as (fb' & Hrun & Hlen & Hval & Hframe).
  { intros i Hi. rewrite length_insert. apply Hin. lia. }
  exists fb'. split.
  { cbn [for_loop]. rewrite !bind_run, Hpx. unfold lift at 1, store at 1.
    replace (0 <=? base + i0) with true by (symmetry; apply Z.leb_le; lia).
    replace (base + i0 <? Z.of_nat (length fb)) with true
      by (symmetry; apply Z.ltb_lt; lia).
    exact Hrun. }
  rewrite length_insert in Hlen. split; [exact Hlen|]. split.
  - intros i Hi. destruct (Z.eq_dec i i0) as [->|Hne]; [|apply Hval; lia].
    rewrite Hframe by (intros i Hi'; lia).
    apply list_lookup_insert_eq. lia.
  - intros k Hk. rewrite Hframe by (intros i Hi; apply Hk; lia).
    apply list_lookup_insert_ne. intros <-. apply (Hk i0); [lia | reflexivity].
Qed.

Lemma rows_no_sample n : forall j0 fb sf,
  0 <= xres -> 0 <= j0 ->
  (j0 + Z.of_nat n) * xres <= Z.of_nat (length fb) ->
  exists fb',
    for_loop n j0 (fun j fb => render_scanline xres yres j fb 0) fb sf = Some (fb', sf) /\
    length fb' = length fb /\
    (forall k : nat, j0 * xres <= Z.of_nat k < (j0 + Z.of_nat n) * xres ->
       fb' !! k = Some 16777215) /\
    (forall k : nat,
       Z.of_nat k < j0 * xres \/ (j0 + Z.of_nat n) * xres <= Z.of_nat k ->
       fb' !! k = fb !! k).
Proof.
  induction n as [|n IH]; intros j0 fb sf Hx Hj Hlen.
  { exists fb. split; [reflexivity|]. split; [reflexivity|].
    split; [intros k Hk; lia | intros k _; reflexivity]. }
  destruct (store_loop_const (fun i => pixel i j0 0) (j0 * xres) 16777215 (Z.to_nat xres)
              (fun i sf => pixel_no_sample i j0 sf) 0 fb sf)
    as (fb1 & Hrow & Hlen1 & Hval1 & Hframe1).
  { intros i Hi. nia. }
  destruct (IH (j0 + 1) fb1 sf Hx ltac:(lia)) as (fb' & Hrun & Hlen' & Hval & Hframe).
  { rewrite Hlen1. lia. }
  exists fb'. split.
  { cbn [for_loop]. rewrite !bind_run. unfold render_scanline at 1. rewrite Hrow.
    exact Hrun. }
  split; [congruence|]. split.
  - intros k Hk. destruct (Z.lt_ge_cases (Z.of_nat k) ((j0 + 1) * xres)) as [Hlt|Hge].
    + rewrite Hframe by lia.
      replace k with (Z.to_nat (j0 * xres + (Z.of_nat k - j0 * xres))) by lia.
      apply Hval1. lia.
    + apply Hval. lia.
  - intros k Hk. rewrite Hframe by nia. apply Hframe1. intros i Hi. nia.
Qed.

End NoSampleFacts.

(** X17: No rays, a white image.  With [rays_per_pixel] = 0 no ray is
    traced; the sum (0, 0, 0) of every pixel is multiplied by
    [1.0 / 0.0], each channel is NaN, [MIN] takes it for 1.0, and [render]
    fills the buffer with the white pixel 0xffffff whatever the scene,
    leaving [sf] as it was. *)
Theorem render_without_samples pow obj_list lights cam urand irand LITTLE_ENDIAN
    xres yres pixels sf :
  0 <= xres -> 0 <= yres ->
  Z.of_nat (length pixels) = xres * yres ->
  cray_f_render pow obj_list lights cam urand irand LITTLE_ENDIAN xres yres 0 pixels sf
  = Some (replicate (length pixels) 16777215, sf).
Proof.
  intros Hx Hy Hlen. unfold cray_f_render. rewrite render_scanlines.
  destruct (rows_no_sample pow obj_list lights cam xres yres urand irand LITTLE_ENDIAN
              (Z.to_nat yres) 0 pixels sf Hx ltac:(lia))
    as (fb' & Hrun & Hlen' & Hval & _); [lia|].
  rewrite Hrun. f_equal. f_equal. apply list_eq. intros k.
  destruct (Nat.lt_ge_cases k (length pixels)) as [Hk|Hk].
  - rewrite Hval by lia. symmetry. apply lookup_replicate_2. assumption.
  - rewrite lookup_ge_None_2 by lia. symmetry. apply lookup_ge_None_2.
    rewrite length_replicate. assumption.
Qed.

(** An 8 by 6 frame of the built-in scene. *)
Lemma render_without_samples_witness :
  cray_f_render pow_integral scene_spheres scene_lights scene_cam flat_urand flat_irand
    true 8 6 0 (replicate 48 0) 0%float
  = Some (replicate 48 16777215, 0%float).
Proof.
  apply (render_without_samples pow_integral scene_spheres scene_lights scene_cam
           flat_urand flat_irand true 8 6 (replicate 48 0) 0%float);
    [lia | lia | reflexivity].
Defined.
